(** * Weather data cleaner: a shallow embedding of [weather_cleaner.cpp]

    The development follows the class [WeatherDataCleaner] of
    [Cleaner/weather_cleaner.cpp] (the buffered-only variant of the file
    has the same [trim], [cleanField], [parseCSVLine], [writeCSVLine] and
    [processFile]).

    A [std::string] is a finite sequence of bytes, here [list ascii];
    positions ([size_t]) are natural numbers and [std::string::npos] is
    [None].  Streams are modelled by their contents: an input stream by
    the characters not yet read, an output stream by the characters
    written so far. *)

From Stdlib Require Import String Ascii List Arith Lia Bool ZArith DecimalString.
From Equations Require Import Equations.
Import ListNotations.

(** ** Bytes and strings *)

Definition str := list ascii.

(** A string literal of the source. *)
Definition lit (s : string) : str := list_ascii_of_string s.
Arguments lit s%_string.

Definition LF : ascii := "010"%char.      (* '\n' *)
Definition CR : ascii := "013"%char.      (* '\r' *)
Definition TAB : ascii := "009"%char.     (* '\t' *)
Definition SPACE : ascii := " "%char.
Definition DQUOTE : ascii := "034"%char.  (* the double quote *)
Definition COMMA : ascii := ","%char.
Definition DASH : ascii := "-"%char.
Definition NUL : ascii := "000"%char.

(** [operator==] on [std::string]. *)
Fixpoint str_eqb (a b : str) : bool :=
  match a, b with
  | [], [] => true
  | x :: a', y :: b' => Ascii.eqb x y && str_eqb a' b'
  | _, _ => false
  end.

(** Membership of a character in a character set given as a string. *)
Fixpoint mem (c : ascii) (set : str) : bool :=
  match set with
  | [] => false
  | x :: set' => Ascii.eqb c x || mem c set'
  end.

Module StdString.

(** [s.find_first_not_of(set)]: the position of the first character of
    [s] that is not in [set]; [None] is [npos]. *)
Fixpoint find_first_not_of (s set : str) : option nat :=
  match s with
  | [] => None
  | c :: s' =>
      if mem c set then option_map S (find_first_not_of s' set)
      else Some 0
  end.

(** [s.find_last_not_of(set)]: the position of the last character of [s]
    that is not in [set]; [None] is [npos]. *)
Fixpoint find_last_not_of (s set : str) : option nat :=
  match s with
  | [] => None
  | c :: s' =>
      match find_last_not_of s' set with
      | Some i => Some (S i)
      | None => if mem c set then None else Some 0
      end
  end.

(** [s.substr(pos, n)]: at most [n] characters from position [pos].  The
    library throws [std::out_of_range] when [pos > s.size()]; every call
    of the program satisfies [pos <= s.size()], see [trim_substr_in_range]
    and [unquote_substr_in_range]. *)
Definition substr (s : str) (pos n : nat) : str := firstn n (skipn pos s).

Definition substr_in_range (s : str) (pos : nat) : Prop := pos <= length s.

(** [s.front()] and [s.back()], read only on non-empty strings. *)
Definition front (s : str) : ascii := nth 0 s NUL.
Definition back (s : str) : ascii := nth (length s - 1) s NUL.

Definition empty (s : str) : bool :=
  match s with [] => true | _ => false end.

End StdString.
Import StdString.

(** [std::isspace] in the default "C" locale: the six characters
    '\t' '\n' '\v' '\f' '\r' (codes 9 to 13) and the space (code 32).
    Bytes above 127 are not white space. *)
Definition isspace (c : ascii) : bool :=
  let n := nat_of_ascii c in
  ((9 <=? n) && (n <=? 13)) || (n =? 32).

(** [std::all_of(first, last, p)]. *)
Fixpoint all_of (p : ascii -> bool) (s : str) : bool :=
  match s with
  | [] => true
  | c :: s' => p c && all_of p s'
  end.

(** ** [trim] and [cleanField] *)

(** The character set [" \t\r\n"] of [trim]. *)
Definition trim_set : str := [SPACE; TAB; CR; LF].

(** [trim].  When [find_first_not_of] finds a position, [find_last_not_of]
    finds one too ([find_last_after_first]); the [None] branch below is what
    the unsigned arithmetic [npos - start + 1] of the source would give
    (a count of [2^64 - start], which is [0] for [start = 0]) and is never
    taken. *)
Definition trim (s : str) : str :=
  match find_first_not_of s trim_set with
  | None => []
  | Some start =>
      match find_last_not_of s trim_set with
      | Some e => substr s start (e - start + 1)
      | None => if start =? 0 then [] else skipn start s
      end
  end.

(** The quote test of [cleanField] and the string it continues with. *)
Definition is_quoted (t : str) : bool :=
  (2 <=? length t) && Ascii.eqb (front t) DQUOTE && Ascii.eqb (back t) DQUOTE.

Definition unquote (t : str) : str :=
  if is_quoted t then substr t 1 (length t - 2) else t.

Definition is_placeholder (t : str) : bool :=
  str_eqb t (lit "-") || str_eqb t (lit "--") || empty t || all_of isspace t.

Definition cleanField (field : str) : str :=
  let trimmed := trim field in
  let trimmed := unquote trimmed in
  if is_placeholder trimmed then lit "0" else trimmed.

(** ** Streams *)

(** [std::getline(rd, s, delim)] on a stream whose unread characters are
    [rd].  [extract] is the extraction loop: it stores characters up to the
    delimiter, which is consumed and not stored, or up to the end of the
    stream; it returns the string read and the unread rest. *)
Fixpoint extract (delim : ascii) (rd : str) : str * str :=
  match rd with
  | [] => ([], [])
  | c :: rd' =>
      if Ascii.eqb c delim then ([], rd')
      else let (s, rest) := extract delim rd' in (c :: s, rest)
  end.

(** The call fails ([failbit], the stream converts to [false]) exactly when
    it extracts no character at all, the delimiter included: that is when
    nothing is left to read.  After a last line without delimiter [eofbit]
    is set and nothing is left, so the next call fails in the same way. *)
Definition getline (rd : str) (delim : ascii) : option (str * str) :=
  match rd with
  | [] => None
  | _ :: _ => Some (extract delim rd)
  end.

(** A successful [getline] consumes at least one character; the loops on
    it end for that reason. *)
Lemma extract_rest_le delim rd :
  length (snd (extract delim rd)) <= length rd.
Proof.
  induction rd as [|c rd IH]; simpl; [lia|].
  destruct (Ascii.eqb c delim); simpl; [lia|].
  destruct (extract delim rd); simpl in *; lia.
Qed.

Lemma getline_consumes rd delim s rest :
  getline rd delim = Some (s, rest) -> length rest < length rd.
Proof.
  destruct rd as [|c rd]; simpl; [discriminate|].
  intros H. injection H as H.
  pose proof (extract_rest_le delim rd) as Hle.
  destruct (Ascii.eqb c delim).
  - injection H as _ <-. lia.
  - destruct (extract delim rd); injection H as _ <-. simpl in Hle. lia.
Qed.

Definition inspect {A} (a : A) : {b : A | a = b} := exist _ a eq_refl.

(** ** [parseCSVLine] *)

(** The loop [while (std::getline(ss, field, ',')) fields.push_back(...)];
    [ss] is what is left of the string stream. *)
Equations? parse_loop (ss : str) (fields : list str) : list str
  by wf (length ss) lt :=
  parse_loop ss fields with inspect (getline ss COMMA) := {
    | exist _ (Some (field, ss')) H =>
        parse_loop ss' (fields ++ [cleanField field]);
    | exist _ None _ => fields }.
Proof. eapply getline_consumes; eassumption. Qed.

Definition parseCSVLine (line : str) : list str := parse_loop line [].

(** ** [writeCSVLine] *)

(** [output] is what the output stream holds before the call; the result is
    what it holds after.  The [for] loop runs over [i = 1 .. size-1]. *)
Definition writeCSVLine (output : str) (fields : list str) : str :=
  match fields with
  | [] => output
  | _ :: _ =>
      let ss := nth 0 fields [] in
      let ss :=
        fold_left (fun ss i => ss ++ COMMA :: nth i fields [])
                  (seq 1 (length fields - 1)) ss in
      let ss := ss ++ [LF] in
      output ++ ss
  end.

(** ** The streaming engine, [processFile] *)

(** The loop [while (std::getline(input, line))]. *)
Equations? read_loop (input : str) (output : str) : str
  by wf (length input) lt :=
  read_loop input output with inspect (getline input LF) := {
    | exist _ (Some (line, input')) H =>
        read_loop input' (writeCSVLine output (parseCSVLine line));
    | exist _ None _ => output }.
Proof. eapply getline_consumes; eassumption. Qed.

(** What a run leaves behind: the value returned and the output file, [None]
    when the run did not create it. *)
Record run := Run { succeeded : bool; output_file : option str }.

(** [input] is the contents of the file at [inputPath], [None] when the
    [std::ifstream] does not open; [creatable] tells whether the
    [std::ofstream] on [outputPath] opens.  The progress lines printed on
    the console are left out. *)
Definition processFile (input : option str) (creatable : bool) : run :=
  match input with
  | None => Run false None
  | Some contents =>
      if creatable then Run true (Some (read_loop contents []))
      else Run false None
  end.

(** ** The mapped-scan engine, [processFileMemoryMapped] *)

(** [std::find(first, last, c)] on positions of the mapped range. *)
Fixpoint find_offset (s : str) (c : ascii) : nat :=
  match s with
  | [] => 0
  | x :: s' => if Ascii.eqb x c then 0 else S (find_offset s' c)
  end.

Definition find (mapped : str) (first last : nat) (c : ascii) : nat :=
  first + find_offset (substr mapped first (last - first)) c.

(** [std::string(first, last)]. *)
Definition range (mapped : str) (first last : nat) : str :=
  substr mapped first (last - first).

(** One turn of the loop [while (lineStart < end)]: the output stream and
    the value of [lineStart] after it. *)
Definition scan_body (mapped : str) (lineStart : nat) (output : str)
  : nat * str :=
  let end_ := length mapped in
  let lineEnd := find mapped lineStart end_ LF in
  let output :=
    if lineStart <? lineEnd then
      let actualLineEnd :=
        if (lineStart <? lineEnd) && Ascii.eqb (nth (lineEnd - 1) mapped NUL) CR
        then lineEnd - 1 else lineEnd in
      let line := range mapped lineStart actualLineEnd in
      writeCSVLine output (parseCSVLine line)
    else output in
  (if lineEnd =? end_ then end_ else lineEnd + 1, output).

Lemma find_offset_le s c : find_offset s c <= length s.
Proof.
  induction s as [|x s IH]; simpl; [lia|].
  destruct (Ascii.eqb x c); lia.
Qed.

Lemma scan_body_advances mapped lineStart output :
  lineStart < length mapped ->
  lineStart < fst (scan_body mapped lineStart output) <= length mapped.
Proof.
  intros Hlt. unfold scan_body, find, substr. simpl.
  pose proof (find_offset_le
                (firstn (length mapped - lineStart) (skipn lineStart mapped)) LF)
    as Hle.
  rewrite length_firstn, length_skipn in Hle.
  destruct (Nat.eqb_spec
              (lineStart + find_offset
                 (firstn (length mapped - lineStart) (skipn lineStart mapped)) LF)
              (length mapped)); lia.
Qed.

Equations? scan_loop (mapped : str) (lineStart : nat) (output : str) : str
  by wf (length mapped - lineStart) lt :=
  scan_loop mapped lineStart output with inspect (lineStart <? length mapped) := {
    | exist _ true H =>
        scan_loop mapped (fst (scan_body mapped lineStart output))
                  (snd (scan_body mapped lineStart output));
    | exist _ false _ => output }.
Proof.
  apply Nat.ltb_lt in H.
  pose proof (scan_body_advances mapped lineStart output H) as Hadv.
  unfold scan_body in Hadv; simpl in Hadv. lia.
Qed.

(** [mapped] is the byte range the file is mapped to, [None] when the file
    cannot be opened, its size read, or the mapping made.  The progress
    lines printed on the console are left out. *)
Definition processFileMemoryMapped (mapped : option str) (creatable : bool)
  : run :=
  match mapped with
  | None => Run false None
  | Some contents =>
      if creatable then Run true (Some (scan_loop contents 0 []))
      else Run false None
  end.

(** ** The validation sample, [validateCleaning] *)

(** The two console streams, by what has been written to them. *)
Record console := Console { cout : str; cerr : str }.

(** [os << std::endl]. *)
Definition endl (os : str) : str := os ++ [LF].

(** The digits [operator<<] prints for an [int]. *)
Definition decimal (n : Z) : str := lit (NilZero.string_of_int (Z.to_int n)).

(** [os << std::setw(w) << ...]: the text is put at the right of a field of
    [w] characters, filled with spaces; a longer text is printed whole. *)
Definition setw (w : nat) (text : str) : str :=
  repeat SPACE (w - length text) ++ text.

(** [line.length() > 120 ? line.substr(0, 120) + "..." : line]. *)
Definition shown (line : str) : str :=
  if 120 <? length line then substr line 0 120 ++ lit "..." else line.

(** What one turn of the loop prints. *)
Definition sample_row (count : Z) (line : str) : str :=
  lit "Line " ++ setw 2 (decimal (count + 1)) ++ lit ": " ++ shown line.

(** The loop [while (std::getline(file, line) && count < sampleLines)]:
    the line is read before the count is tested.  [count] and [sampleLines]
    are [int]s; [count] never exceeds [sampleLines], so [count + 1] does not
    overflow. *)
Equations? sample_loop (file : str) (count sampleLines : Z) (out : str) : str
  by wf (length file) lt :=
  sample_loop file count sampleLines out with inspect (getline file LF) := {
    | exist _ (Some (line, file')) H =>
        if (count <? sampleLines)%Z
        then sample_loop file' (count + 1)%Z sampleLines
                         (endl (out ++ sample_row count line))
        else out;
    | exist _ None _ => out }.
Proof. eapply getline_consumes; eassumption. Qed.

(** [file] is the contents of the file at [filePath], [None] when it does
    not open.  The stream is a text stream; on POSIX systems it reads the
    bytes of the file as they are. *)
Definition validateCleaning (file : option str) (sampleLines : Z)
  (con : console) : console :=
  match file with
  | None =>
      Console (cout con)
              (endl (cerr con ++ lit "Error: Cannot open file for validation"))
  | Some contents =>
      let out :=
        endl (cout con ++ [LF] ++ lit "Validation sample from cleaned file:") in
      let out := endl (out ++ repeat DASH 80) in
      Console (sample_loop contents 0 sampleLines out) (cerr con)
  end.

(** ** The cleaning policy as the specification words it *)

Module Spec.

(** Step 1: the set {space, tab, carriage-return, newline}. *)
Definition trim_char (c : ascii) : bool :=
  Ascii.eqb c SPACE || Ascii.eqb c TAB || Ascii.eqb c CR || Ascii.eqb c LF.

Fixpoint drop_leading (p : ascii -> bool) (s : str) : str :=
  match s with
  | [] => []
  | c :: s' => if p c then drop_leading p s' else s
  end.

Definition drop_trailing (p : ascii -> bool) (s : str) : str :=
  rev (drop_leading p (rev s)).

Definition trim (s : str) : str :=
  drop_trailing trim_char (drop_leading trim_char s).

(** Step 2: length at least two, a double quote at both ends; one leading
    and one trailing quote are removed. *)
Definition quoted (t : str) : bool :=
  (2 <=? length t) && Ascii.eqb (hd NUL t) DQUOTE
  && Ascii.eqb (last t NUL) DQUOTE.

Definition strip_quotes (t : str) : str := removelast (tl t).

(** Step 3: white space is the ASCII class: space, tab, newline, vertical
    tab, form feed and carriage return. *)
Definition whitespace (c : ascii) : bool :=
  existsb (Ascii.eqb c) [SPACE; TAB; LF; "011"%char; "012"%char; CR].

Definition str_dec : forall a b : str, {a = b} + {a <> b} :=
  list_eq_dec ascii_dec.

Definition placeholder (t : str) : bool :=
  if str_dec t [] then true
  else if forallb whitespace t then true
  else if str_dec t [DASH] then true
  else if str_dec t [DASH; DASH] then true
  else false.

(** Steps 1 to 4. *)
Definition clean (raw : str) : str :=
  let t := trim raw in
  let u := if quoted t then strip_quotes t else t in
  if placeholder u then lit "0" else u.

(** [write]: the fields joined with the delimiter. *)
Fixpoint join (sep : ascii) (fields : list str) : str :=
  match fields with
  | [] => []
  | [f] => f
  | f :: rest => f ++ sep :: join sep rest
  end.

(** The raw split of a line: [k] delimiters give [k + 1] pieces. *)
Fixpoint raw_split (sep : ascii) (line : str) : list str :=
  match line with
  | [] => [[]]
  | c :: line' =>
      if Ascii.eqb c sep then [] :: raw_split sep line'
      else match raw_split sep line' with
           | [] => [[c]]
           | f :: rest => (c :: f) :: rest
           end
  end.

End Spec.

(** ** Notions used to state the properties *)

(** The number of delimiters of a line. *)
Definition count_delims (line : str) : nat := count_occ ascii_dec line COMMA.

(** A string that [trim] and the quote test leave alone: it neither starts
    nor ends with a character of [trim_set] and is not enclosed in double
    quotes. *)
Definition settled (g : str) : bool :=
  negb (mem (front g) trim_set) && negb (mem (back g) trim_set)
  && negb (is_quoted g).

(** What an engine does with one line: parse it and write the record. *)
Definition emit (output line : str) : str :=
  writeCSVLine output (parseCSVLine line).

(** The line without the '\r' that ends it, if one does. *)
Definition strip_cr (line : str) : str :=
  if Ascii.eqb (back line) CR then removelast line else line.

(** What the mapped-scan engine does with the bytes up to the next '\n'. *)
Definition emit_mapped (output line : str) : str :=
  match line with
  | [] => output
  | _ :: _ => emit output (strip_cr line)
  end.

(** Contents in which a carriage return occurs only right before a newline,
    as half of a "\r\n" line end. *)
Fixpoint crlf_only (contents : str) : bool :=
  match contents with
  | [] => true
  | c :: rest =>
      (if Ascii.eqb c CR
       then match rest with d :: _ => Ascii.eqb d LF | [] => false end
       else true)
      && crlf_only rest
  end.

(** A line that is empty or ends with the delimiter: nothing follows its
    last delimiter. *)
Definition open_ended (delim : ascii) (s : str) : bool :=
  match s with
  | [] => true
  | _ :: _ => Ascii.eqb (back s) delim
  end.

(** A line on which the two engines do the same: it does not end with
    '\r', or a field that is not empty precedes that '\r'. *)
Definition cr_safe (line : str) : bool :=
  negb (Ascii.eqb (back line) CR) || negb (open_ended COMMA (removelast line)).

(** The strings that successive calls of [getline] return on a stream that
    holds [s]: the pieces between delimiters, without a last piece when
    nothing follows the last delimiter. *)
Fixpoint chunks (delim : ascii) (s : str) : list str :=
  match s with
  | [] => []
  | c :: s' =>
      if Ascii.eqb c delim then [] :: chunks delim s'
      else match chunks delim s' with
           | [] => [[c]]
           | f :: rest => (c :: f) :: rest
           end
  end.

(** Membership in the set of [trim]. *)
Definition in_trim_set (c : ascii) : bool := mem c trim_set.

(** The lines of a file on which the engines differ. *)
Definition unsafe_lines (contents : str) : list str :=
  filter (fun l => negb (cr_safe l)) (chunks LF contents).

(** The record written for a line, without its newline, and the records of
    a file: one for each line that is not empty. *)
Definition record (line : str) : str := Spec.join COMMA (parseCSVLine line).

Definition nonblank (line : str) : bool := negb (empty line).

Definition records (contents : str) : list str :=
  map record (filter nonblank (chunks LF contents)).


(** * Properties *)

(** ** Characters *)

Lemma mem_trim_set c : mem c trim_set = Spec.trim_char c.
Proof.
  unfold trim_set, Spec.trim_char; simpl.
  rewrite orb_false_r, !orb_assoc. reflexivity.
Qed.

Lemma isspace_whitespace c : isspace c = Spec.whitespace c.
Proof.
  destruct c as [[] [] [] [] [] [] [] []]; reflexivity.
Qed.

Lemma trim_char_isspace c : mem c trim_set = true -> isspace c = true.
Proof.
  rewrite mem_trim_set. unfold Spec.trim_char.
  intros H. repeat (apply orb_true_iff in H; destruct H as [H|H]);
    apply Ascii.eqb_eq in H; subst c; reflexivity.
Qed.

Lemma str_eqb_eq a b : str_eqb a b = true <-> a = b.
Proof.
  revert b; induction a as [|x a IH]; intros [|y b]; simpl;
    try (split; [discriminate|discriminate]); try tauto.
  rewrite andb_true_iff, Ascii.eqb_eq, IH.
  split; [intros [-> ->]; reflexivity | intros H; injection H; auto].
Qed.

Lemma back_cons c d s : back (c :: d :: s) = back (d :: s).
Proof. unfold back; simpl. rewrite Nat.sub_0_r. reflexivity. Qed.

(** ** Positions found by [find_first_not_of] and [find_last_not_of] *)

Section Find.

Variable set : str.
Let p (c : ascii) : bool := mem c set.

Lemma find_first_spec s :
  match find_first_not_of s set with
  | None => Spec.drop_leading p s = []
  | Some i => i < length s /\ Spec.drop_leading p s = skipn i s
              /\ p (nth i s NUL) = false
  end.
Proof.
  induction s as [|c s IH]; simpl; [reflexivity|].
  change (p c) with (mem c set). destruct (mem c set) eqn:Hc.
  - destruct (find_first_not_of s set) as [i|]; simpl; [|exact IH].
    destruct IH as (Hi & Hd & Hn). repeat split; [lia|assumption|assumption].
  - repeat split; [lia|exact Hc].
Qed.

Lemma find_last_after_first s i :
  find_first_not_of s set = Some i ->
  exists e, find_last_not_of s set = Some e /\ i <= e.
Proof.
  revert i; induction s as [|c s IH]; simpl; intros i; [discriminate|].
  destruct (mem c set) eqn:Hc.
  - destruct (find_first_not_of s set) as [j|]; simpl; [|discriminate].
    intros H; injection H as <-.
    destruct (IH j eq_refl) as (e & -> & Hle). exists (S e). split; [reflexivity|lia].
  - intros H; injection H as <-.
    destruct (find_last_not_of s set) as [e|]; eauto with arith.
Qed.

Lemma drop_leading_snoc s c :
  Spec.drop_leading p (s ++ [c]) =
  match Spec.drop_leading p s with
  | [] => if p c then [] else [c]
  | t => t ++ [c]
  end.
Proof.
  induction s as [|x s IH]; simpl; [destruct (p c); reflexivity|].
  destruct (p x); [exact IH|reflexivity].
Qed.

Lemma drop_trailing_cons c s :
  Spec.drop_trailing p (c :: s) =
  match Spec.drop_trailing p s with
  | [] => if p c then [] else [c]
  | t => c :: t
  end.
Proof.
  unfold Spec.drop_trailing; simpl. rewrite drop_leading_snoc.
  destruct (Spec.drop_leading p (rev s)) as [|y t] eqn:E; simpl.
  - destruct (p c); reflexivity.
  - rewrite rev_app_distr; simpl.
    destruct (rev t ++ [y]) eqn:E'; [|reflexivity].
    destruct (rev t); discriminate.
Qed.

Lemma find_last_spec s :
  match find_last_not_of s set with
  | None => Spec.drop_trailing p s = []
  | Some e => e < length s /\ Spec.drop_trailing p s = firstn (S e) s
              /\ p (nth e s NUL) = false
  end.
Proof.
  induction s as [|c s IH]; [reflexivity|].
  rewrite drop_trailing_cons. cbn [find_last_not_of].
  destruct (find_last_not_of s set) as [e|].
  - destruct IH as (He & -> & Hn). split; [simpl; lia|].
    split; [|exact Hn].
    destruct s; [simpl in He; lia|reflexivity].
  - rewrite IH. change (mem c set) with (p c). destruct (p c) eqn:Hc; [reflexivity|].
    split; [simpl; lia|]. split; [reflexivity|exact Hc].
Qed.

Lemma find_first_front s :
  s <> [] -> p (front s) = false -> find_first_not_of s set = Some 0.
Proof.
  destruct s as [|c s]; [congruence|]. unfold front; simpl.
  change (mem c set) with (p c). intros _ ->. reflexivity.
Qed.

Lemma find_last_back s :
  s <> [] -> p (back s) = false ->
  find_last_not_of s set = Some (length s - 1).
Proof.
  induction s as [|c s IH]; [congruence|]. intros _.
  destruct s as [|d s].
  - unfold back; simpl. change (mem c set) with (p c). intros ->. reflexivity.
  - intros Hb. cbn [find_last_not_of] in *.
    rewrite back_cons in Hb.
    rewrite IH by (congruence || assumption).
    simpl. rewrite Nat.sub_0_r. reflexivity.
Qed.

End Find.

(** ** [trim] removes the leading and trailing characters of its set *)

Lemma trim_substr_in_range s start :
  find_first_not_of s trim_set = Some start -> substr_in_range s start.
Proof.
  intros H. pose proof (find_first_spec trim_set s) as Hs.
  rewrite H in Hs. unfold substr_in_range. lia.
Qed.

Lemma trim_cons_in c s :
  mem c trim_set = true -> trim (c :: s) = trim s.
Proof.
  intros Hc. unfold trim. cbn [find_first_not_of find_last_not_of]. rewrite Hc.
  destruct (find_first_not_of s trim_set) as [st|] eqn:Hf; simpl; [|reflexivity].
  destruct (find_last_after_first _ _ _ Hf) as (e & -> & Hle).
  reflexivity.
Qed.

Lemma trim_cons_out c s :
  mem c trim_set = false ->
  trim (c :: s) = Spec.drop_trailing (fun x => mem x trim_set) (c :: s).
Proof.
  intros Hc. unfold trim.
  pose proof (find_last_spec trim_set (c :: s)) as Hl.
  cbn [find_first_not_of]. rewrite Hc.
  destruct (find_last_not_of (c :: s) trim_set) as [e|] eqn:He.
  - destruct Hl as (_ & -> & _). unfold substr. simpl skipn.
    f_equal. lia.
  - rewrite drop_trailing_cons in Hl. rewrite Hc in Hl.
    destruct (Spec.drop_trailing _ s); discriminate.
Qed.

Lemma drop_leading_ext p q s :
  (forall c, p c = q c) -> Spec.drop_leading p s = Spec.drop_leading q s.
Proof.
  intros E; induction s as [|c s IH]; simpl; [reflexivity|].
  rewrite E, IH. reflexivity.
Qed.

Lemma trim_drops s :
  trim s = Spec.drop_trailing (fun x => mem x trim_set)
             (Spec.drop_leading (fun x => mem x trim_set) s).
Proof.
  induction s as [|c s IH]; [reflexivity|].
  cbn [Spec.drop_leading]. destruct (mem c trim_set) eqn:Hc.
  - rewrite trim_cons_in by assumption. exact IH.
  - apply trim_cons_out. assumption.
Qed.

Lemma trim_refines s : trim s = Spec.trim s.
Proof.
  rewrite trim_drops. unfold Spec.trim, Spec.drop_trailing.
  rewrite (drop_leading_ext _ Spec.trim_char s) by apply mem_trim_set.
  rewrite (drop_leading_ext _ Spec.trim_char (rev _)) by apply mem_trim_set.
  reflexivity.
Qed.

(** What [trim] returns, in terms of the two positions it computes. *)
Lemma trim_cases s :
  (trim s = [] /\ find_first_not_of s trim_set = None) \/
  (exists start e,
      find_first_not_of s trim_set = Some start /\
      find_last_not_of s trim_set = Some e /\
      start <= e < length s /\
      trim s = substr s start (e - start + 1) /\
      mem (nth start s NUL) trim_set = false /\
      mem (nth e s NUL) trim_set = false).
Proof.
  unfold trim.
  destruct (find_first_not_of s trim_set) as [start|] eqn:Hf; [right|left; auto].
  destruct (find_last_after_first _ _ _ Hf) as (e & He & Hle).
  pose proof (find_first_spec trim_set s) as H1. rewrite Hf in H1.
  pose proof (find_last_spec trim_set s) as H2. rewrite He in H2.
  exists start, e. rewrite He. intuition.
Qed.

Lemma length_substr s pos n :
  pos + n <= length s -> length (substr s pos n) = n.
Proof.
  intros H. unfold substr. rewrite length_firstn, length_skipn. lia.
Qed.

Lemma trim_length s : length (trim s) <= length s.
Proof.
  destruct (trim_cases s) as [(-> & _) | (start & e & _ & _ & Hr & -> & _)].
  - simpl; lia.
  - rewrite length_substr; lia.
Qed.

(** The result of [trim] neither starts nor ends with a character of the
    set. *)
Lemma trim_ends s :
  trim s <> [] ->
  mem (front (trim s)) trim_set = false /\
  mem (back (trim s)) trim_set = false.
Proof.
  destruct (trim_cases s)
    as [(-> & _) | (start & e & _ & _ & Hr & -> & Hs & He)]; [congruence|].
  intros _. unfold back. rewrite length_substr by lia.
  unfold front, substr. rewrite !nth_firstn, !nth_skipn.
  destruct (Nat.ltb_spec 0 (e - start + 1)); [|lia].
  destruct (Nat.ltb_spec (e - start + 1 - 1) (e - start + 1)); [|lia].
  rewrite Nat.add_0_r. replace (start + (e - start + 1 - 1)) with e by lia.
  auto.
Qed.

Lemma trim_fixed s :
  s <> [] ->
  mem (front s) trim_set = false -> mem (back s) trim_set = false ->
  trim s = s.
Proof.
  intros Hne Hf Hb. unfold trim.
  rewrite (find_first_front trim_set s Hne Hf), (find_last_back trim_set s Hne Hb).
  unfold substr. simpl skipn. apply firstn_all2.
  destruct s; [congruence|simpl; lia].
Qed.

Lemma trim_full_length s : length (trim s) = length s -> trim s = s.
Proof.
  destruct (trim_cases s)
    as [(-> & _) | (start & e & _ & _ & Hr & -> & _)].
  - destruct s; [reflexivity|discriminate].
  - rewrite length_substr by lia. intros Hl.
    assert (start = 0) as -> by lia.
    unfold substr; simpl. apply firstn_all2. lia.
Qed.

(** ** Unquoting *)

Lemma front_hd t : front t = hd NUL t.
Proof. destruct t; reflexivity. Qed.

Lemma back_last t : back t = last t NUL.
Proof.
  unfold back. induction t as [|a t IH]; [reflexivity|].
  destruct t as [|b t]; [reflexivity|].
  simpl in *. rewrite Nat.sub_0_r in IH. exact IH.
Qed.

Lemma is_quoted_refines t : is_quoted t = Spec.quoted t.
Proof. unfold is_quoted, Spec.quoted. rewrite front_hd, back_last. reflexivity. Qed.

Lemma is_quoted_length t : is_quoted t = true -> 2 <= length t.
Proof.
  unfold is_quoted. rewrite !andb_true_iff, Nat.leb_le. tauto.
Qed.

Lemma unquote_substr_in_range t : is_quoted t = true -> substr_in_range t 1.
Proof. intros H. apply is_quoted_length in H. unfold substr_in_range. lia. Qed.

Lemma substr_strip_quotes t :
  substr t 1 (length t - 2) = Spec.strip_quotes t.
Proof.
  unfold substr, Spec.strip_quotes. destruct t as [|a t]; [reflexivity|].
  simpl. rewrite removelast_firstn_len. f_equal. lia.
Qed.

Lemma unquote_length t : length (unquote t) <= length t.
Proof.
  unfold unquote. destruct (is_quoted t) eqn:Hq; [|lia].
  apply is_quoted_length in Hq. rewrite length_substr; lia.
Qed.

Lemma unquote_quoted_length t :
  is_quoted t = true -> length (unquote t) = length t - 2.
Proof.
  intros Hq. unfold unquote. rewrite Hq.
  apply is_quoted_length in Hq. rewrite length_substr; lia.
Qed.

(** ** Placeholders *)

Lemma all_of_forallb p s : all_of p s = forallb p s.
Proof. induction s as [|c s IH]; simpl; [|rewrite IH]; reflexivity. Qed.

Lemma forallb_ext_ascii (p q : ascii -> bool) s :
  (forall c, p c = q c) -> forallb p s = forallb q s.
Proof.
  intros E; induction s as [|c s IH]; simpl; [|rewrite E, IH]; reflexivity.
Qed.

Lemma is_placeholder_refines t : is_placeholder t = Spec.placeholder t.
Proof.
  unfold is_placeholder, Spec.placeholder.
  rewrite all_of_forallb, (forallb_ext_ascii _ Spec.whitespace t)
    by apply isspace_whitespace.
  destruct (Spec.str_dec t []) as [->|Hne]; [reflexivity|].
  destruct (forallb Spec.whitespace t); [apply orb_true_r|].
  rewrite orb_false_r.
  replace (empty t) with false by (destruct t; [congruence|reflexivity]).
  rewrite orb_false_r.
  destruct (Spec.str_dec t [DASH]) as [->|H1]; [reflexivity|].
  destruct (Spec.str_dec t [DASH; DASH]) as [->|H2]; [reflexivity|].
  apply orb_false_iff; split; apply not_true_is_false;
    rewrite str_eqb_eq; assumption.
Qed.

Lemma is_placeholder_nonempty t : is_placeholder t = false -> t <> [].
Proof. intros H ->. discriminate. Qed.

(** ** [cleanField] *)

Lemma cleanField_cases field :
  (cleanField field = lit "0" /\ is_placeholder (unquote (trim field)) = true)
  \/ (cleanField field = unquote (trim field)
      /\ is_placeholder (unquote (trim field)) = false).
Proof.
  unfold cleanField. destruct (is_placeholder (unquote (trim field))); auto.
Qed.

Lemma cleanField_refines field : cleanField field = Spec.clean field.
Proof.
  unfold cleanField, Spec.clean, unquote.
  rewrite <- trim_refines, <- is_quoted_refines, <- substr_strip_quotes.
  rewrite <- is_placeholder_refines. reflexivity.
Qed.

Lemma cleanField_not_placeholder field :
  is_placeholder (cleanField field) = false.
Proof.
  destruct (cleanField_cases field) as [(-> & _) | (-> & H)];
    [reflexivity | exact H].
Qed.

(** C6: [cleanField] is the four-step algorithm of the specification (trim
    the characters space, tab, carriage return and newline at both ends;
    strip one pair of enclosing double quotes from a result of length two or
    more; return "0" for an empty, all-white-space, "-" or "--" result;
    return the result otherwise).  The empty string, three spaces, "-" and
    "--" go to "0", the quoted string abc goes to abc, and the string of two
    double quotes goes to "0". *)
Theorem cleanField_four_steps :
  (forall f, cleanField f = Spec.clean f) /\
  cleanField (lit "") = lit "0" /\
  cleanField (lit "   ") = lit "0" /\
  cleanField (lit "-") = lit "0" /\
  cleanField (lit "--") = lit "0" /\
  cleanField ([DQUOTE] ++ lit "abc" ++ [DQUOTE]) = lit "abc" /\
  cleanField [DQUOTE; DQUOTE] = lit "0".
Proof.
  split; [exact cleanField_refines|].
  repeat split; reflexivity.
Qed.

(** ** Idempotence *)

Lemma cleanField_fixed g :
  g <> [] -> settled g = true -> is_placeholder g = false -> cleanField g = g.
Proof.
  intros Hne Hs Hp. unfold settled in Hs.
  rewrite !andb_true_iff, !negb_true_iff in Hs. destruct Hs as ((Hf & Hb) & Hq).
  unfold cleanField. rewrite (trim_fixed g Hne Hf Hb).
  unfold unquote. rewrite Hq, Hp. reflexivity.
Qed.

Lemma cleanField_fixed_settled g : cleanField g = g -> settled g = true.
Proof.
  intros Hfix.
  destruct (cleanField_cases g) as [(H0 & _) | (Hu & Hp)].
  - rewrite <- Hfix, H0. reflexivity.
  - rewrite Hfix in Hu.
    pose proof (unquote_length (trim g)) as H1.
    pose proof (trim_length g) as H2.
    pose proof (f_equal (@length ascii) Hu) as Hlen.
    assert (Ht : trim g = g) by (apply trim_full_length; lia).
    rewrite Ht in Hu, Hp.
    assert (Hne : g <> []) by (rewrite Hu; apply is_placeholder_nonempty, Hp).
    assert (Hq : is_quoted g = false).
    { destruct (is_quoted g) eqn:Hq; [|reflexivity].
      pose proof (unquote_quoted_length _ Hq) as Hl.
      apply is_quoted_length in Hq. rewrite <- Hu in Hl. lia. }
    rewrite <- Ht in Hne. destruct (trim_ends _ Hne) as (Hf & Hb).
    rewrite Ht in Hf, Hb. unfold settled. rewrite Hf, Hb, Hq. reflexivity.
Qed.

Lemma cleanField_result_nonempty field : cleanField field <> [].
Proof. apply is_placeholder_nonempty, cleanField_not_placeholder. Qed.

(** Fields that are not quoted are cleaned once and for all. *)
Lemma cleanField_idempotent_unquoted f :
  is_quoted (trim f) = false -> cleanField (cleanField f) = cleanField f.
Proof.
  intros Hq. apply cleanField_fixed.
  - apply cleanField_result_nonempty.
  - destruct (cleanField_cases f) as [(-> & _) | (-> & Hp)]; [reflexivity|].
    unfold unquote in *. rewrite Hq in *.
    destruct (trim_ends _ (is_placeholder_nonempty _ Hp)) as (Hf & Hb).
    unfold settled. rewrite Hf, Hb, Hq. reflexivity.
  - apply cleanField_not_placeholder.
Qed.

(** C5, as the code has it: cleaning a cleaned field again changes nothing
    exactly when the cleaned field is settled, that is, it neither starts nor
    ends with space, tab, carriage return or newline and is not itself
    enclosed in double quotes; this is so whenever the trimmed field is not
    enclosed in double quotes. *)
Theorem cleanField_idempotent_iff_settled f :
  (cleanField (cleanField f) = cleanField f <-> settled (cleanField f) = true)
  /\ (is_quoted (trim f) = false ->
      cleanField (cleanField f) = cleanField f).
Proof.
  split; [split|].
  - apply cleanField_fixed_settled.
  - intros Hs. apply cleanField_fixed.
    + apply cleanField_result_nonempty.
    + exact Hs.
    + apply cleanField_not_placeholder.
  - apply cleanField_idempotent_unquoted.
Qed.

Lemma cleanField_idempotent_witness :
  is_quoted (trim (lit " 12.5 ")) = false /\
  cleanField (cleanField (lit " 12.5 ")) = cleanField (lit " 12.5 ").
Proof.
  split; [reflexivity|].
  apply (proj2 (cleanField_idempotent_iff_settled (lit " 12.5 "))).
  reflexivity.
Defined.

(** C5, as stated, fails on a field quoted twice: one pair of quotes is
    stripped at each pass. *)
Lemma cleanField_not_idempotent :
  cleanField (cleanField ([DQUOTE; DQUOTE] ++ lit "abc" ++ [DQUOTE; DQUOTE]))
  <> cleanField ([DQUOTE; DQUOTE] ++ lit "abc" ++ [DQUOTE; DQUOTE]).
Proof. vm_compute. discriminate. Qed.

(** ** [parseCSVLine] and the pieces of a line *)

Lemma chunks_extract delim s :
  s <> [] ->
  chunks delim s = fst (extract delim s) :: chunks delim (snd (extract delim s)).
Proof.
  induction s as [|c s IH]; [congruence|]. intros _. simpl.
  destruct (Ascii.eqb c delim); [reflexivity|].
  destruct s as [|d s]; [reflexivity|].
  rewrite IH by congruence.
  destruct (extract delim (d :: s)); reflexivity.
Qed.

Lemma chunks_getline delim s :
  match getline s delim with
  | None => chunks delim s = []
  | Some (f, rest) => chunks delim s = f :: chunks delim rest
  end.
Proof.
  destruct s as [|c s]; [reflexivity|].
  unfold getline. rewrite (chunks_extract delim (c :: s)) by congruence.
  destruct (extract delim (c :: s)); reflexivity.
Qed.

Lemma parse_loop_chunks ss fields :
  parse_loop ss fields = fields ++ map cleanField (chunks COMMA ss).
Proof.
  funelim (parse_loop ss fields).
  - pose proof (chunks_getline COMMA ss) as Hc. rewrite H in Hc.
    rewrite H0, Hc. simpl. rewrite <- app_assoc. reflexivity.
  - pose proof (chunks_getline COMMA ss) as Hc. rewrite e in Hc.
    rewrite Hc. simpl. rewrite app_nil_r. reflexivity.
Qed.

Lemma parseCSVLine_chunks line :
  parseCSVLine line = map cleanField (chunks COMMA line).
Proof. unfold parseCSVLine. rewrite parse_loop_chunks. reflexivity. Qed.

(** C10: [cleanField] never returns the empty string: it returns the
    sentinel "0" or the non-empty trimmed and unquoted field; so no field of a
    parsed record, which is what gets written, is empty. *)
Theorem cleanField_nonempty :
  (forall s, cleanField s <> [] /\
             (cleanField s = lit "0" \/
              cleanField s = unquote (trim s) /\ unquote (trim s) <> [])) /\
  (forall line, Forall (fun f => f <> []) (parseCSVLine line)).
Proof.
  split.
  - intros s. split; [apply cleanField_result_nonempty|].
    destruct (cleanField_cases s) as [(H & _) | (H & Hp)]; [left; exact H|].
    right. split; [exact H|]. apply is_placeholder_nonempty, Hp.
  - intros line. rewrite parseCSVLine_chunks. apply Forall_forall.
    intros f Hin. apply in_map_iff in Hin. destruct Hin as (x & <- & _).
    apply cleanField_result_nonempty.
Qed.

(** ** [writeCSVLine] *)

Lemma write_loop_appends pre rest acc :
  fold_left (fun ss i => ss ++ COMMA :: nth i (pre ++ rest) [])
            (seq (length pre) (length rest)) acc
  = acc ++ concat (map (cons COMMA) rest).
Proof.
  revert pre acc. induction rest as [|f rest IH]; intros pre acc; simpl.
  - rewrite app_nil_r. reflexivity.
  - rewrite app_nth2, Nat.sub_diag by lia. simpl.
    replace (pre ++ f :: rest) with ((pre ++ [f]) ++ rest)
      by (rewrite <- app_assoc; reflexivity).
    replace (S (length pre)) with (length (pre ++ [f]))
      by (rewrite length_app; simpl; lia).
    rewrite IH, <- app_assoc. reflexivity.
Qed.

Lemma join_cons sep f rest :
  Spec.join sep (f :: rest) = f ++ concat (map (cons sep) rest).
Proof.
  revert f. induction rest as [|g rest IH]; intros f.
  - simpl. rewrite app_nil_r. reflexivity.
  - change (Spec.join sep (f :: g :: rest))
      with (f ++ sep :: Spec.join sep (g :: rest)).
    rewrite IH. reflexivity.
Qed.

Lemma writeCSVLine_cons output f rest :
  writeCSVLine output (f :: rest)
  = output ++ Spec.join COMMA (f :: rest) ++ [LF].
Proof.
  unfold writeCSVLine.
  change (nth 0 (f :: rest) []) with f.
  replace (length (f :: rest) - 1) with (length rest) by (simpl; lia).
  pose proof (write_loop_appends [f] rest f) as Hloop.
  change ([f] ++ rest) with (f :: rest) in Hloop.
  change (length [f]) with 1 in Hloop.
  rewrite join_cons. f_equal. f_equal. exact Hloop.
Qed.

(** C7: for a non-empty sequence of fields [writeCSVLine] appends to the
    output stream the fields joined with ',' and then one '\n'; for the empty
    sequence it appends nothing. *)
Theorem writeCSVLine_joins :
  (forall output fields,
      fields <> [] ->
      writeCSVLine output fields = output ++ Spec.join COMMA fields ++ [LF]) /\
  (forall output, writeCSVLine output [] = output).
Proof.
  split; [|reflexivity].
  intros output [|f rest] Hne; [congruence|]. apply writeCSVLine_cons.
Qed.

Lemma writeCSVLine_joins_witness :
  writeCSVLine (lit "x") [lit "a"; lit "0"; lit "b"]
  = lit "x" ++ Spec.join COMMA [lit "a"; lit "0"; lit "b"] ++ [LF].
Proof.
  apply (proj1 writeCSVLine_joins (lit "x") [lit "a"; lit "0"; lit "b"]).
  discriminate.
Defined.

Lemma writeCSVLine_app output fields :
  writeCSVLine output fields = output ++ writeCSVLine [] fields.
Proof.
  destruct fields as [|f rest]; [simpl; rewrite app_nil_r; reflexivity|].
  rewrite !writeCSVLine_cons. reflexivity.
Qed.

(** ** Field counts *)

Section Pieces.

Variable delim : ascii.

Lemma raw_split_nonempty s : Spec.raw_split delim s <> [].
Proof.
  destruct s as [|c s]; simpl; [discriminate|].
  destruct (Ascii.eqb c delim); [discriminate|].
  destruct (Spec.raw_split delim s); discriminate.
Qed.

Lemma length_raw_split s :
  length (Spec.raw_split delim s) = count_occ ascii_dec s delim + 1.
Proof.
  induction s as [|c s IH]; [reflexivity|]. simpl.
  destruct (Ascii.eqb_spec c delim) as [->|Hne].
  - destruct (ascii_dec delim delim); [|congruence]. simpl. lia.
  - destruct (ascii_dec c delim); [congruence|].
    pose proof (raw_split_nonempty s).
    destruct (Spec.raw_split delim s); [congruence|]. simpl in *. lia.
Qed.

Lemma open_ended_cons c d s :
  open_ended delim (c :: d :: s) = open_ended delim (d :: s).
Proof. unfold open_ended. rewrite back_cons. reflexivity. Qed.

Lemma chunks_nil_inv s : chunks delim s = [] -> s = [].
Proof.
  destruct s as [|c s]; [reflexivity|]. simpl.
  destruct (Ascii.eqb c delim); [discriminate|].
  destruct (chunks delim s); discriminate.
Qed.

(** The raw split is what [getline] yields, plus an empty last piece when
    the line is empty or ends with the delimiter. *)
Lemma raw_split_chunks s :
  Spec.raw_split delim s
  = chunks delim s ++ (if open_ended delim s then [[]] else []).
Proof.
  induction s as [|c s IH]; [reflexivity|].
  cbn [Spec.raw_split chunks]. rewrite IH.
  destruct s as [|d s].
  - unfold open_ended, back; simpl.
    destruct (Ascii.eqb c delim); reflexivity.
  - rewrite open_ended_cons.
    destruct (Ascii.eqb c delim); [reflexivity|].
    destruct (chunks delim (d :: s)) as [|f r] eqn:E; [|reflexivity].
    apply chunks_nil_inv in E. discriminate.
Qed.

Lemma length_chunks s :
  length (chunks delim s) + (if open_ended delim s then 1 else 0)
  = count_occ ascii_dec s delim + 1.
Proof.
  rewrite <- length_raw_split, raw_split_chunks, length_app.
  destruct (open_ended delim s); reflexivity.
Qed.

Lemma chunks_no_delim s : Forall (fun f => ~ In delim f) (chunks delim s).
Proof.
  induction s as [|c s IH]; [constructor|]. simpl.
  destruct (Ascii.eqb_spec c delim) as [->|Hne].
  - constructor; [intros []|exact IH].
  - destruct (chunks delim s) as [|f r].
    + constructor; [|constructor]. intros [H|[]]. congruence.
    + inversion IH; subst. constructor; [|assumption].
      intros [H|H]; [congruence|contradiction].
Qed.

End Pieces.

Lemma in_substr c s pos n : In c (substr s pos n) -> In c s.
Proof.
  unfold substr. intros H.
  rewrite <- (firstn_skipn pos s). apply in_or_app. right.
  rewrite <- (firstn_skipn n (skipn pos s)). apply in_or_app. left. exact H.
Qed.

Lemma in_trim c s : In c (trim s) -> In c s.
Proof.
  destruct (trim_cases s) as [(-> & _) | (start & e & _ & _ & _ & -> & _)].
  - intros [].
  - apply in_substr.
Qed.

Lemma in_cleanField c field :
  In c (cleanField field) -> c = "0"%char \/ In c field.
Proof.
  destruct (cleanField_cases field) as [(-> & _) | (-> & _)].
  - intros [H|[]]; auto.
  - unfold unquote. destruct (is_quoted (trim field)); intros H; right.
    + apply in_substr in H. apply in_trim. exact H.
    + apply in_trim. exact H.
Qed.

Lemma count_delims_app a b :
  count_delims (a ++ b) = count_delims a + count_delims b.
Proof. apply count_occ_app. Qed.

Lemma count_delims_none f : ~ In COMMA f -> count_delims f = 0.
Proof. intros H. apply count_occ_not_In. exact H. Qed.

Lemma count_delims_separated rest :
  Forall (fun f => ~ In COMMA f) rest ->
  count_delims (concat (map (cons COMMA) rest)) = length rest.
Proof.
  induction 1 as [|g rest Hg Hrest IH]; [reflexivity|].
  cbn [map concat length].
  change ((COMMA :: g) ++ concat (map (cons COMMA) rest))
    with ([COMMA] ++ g ++ concat (map (cons COMMA) rest)).
  rewrite !count_delims_app, IH, (count_delims_none g Hg). reflexivity.
Qed.

Lemma count_delims_join fields :
  Forall (fun f => ~ In COMMA f) fields ->
  count_delims (Spec.join COMMA fields) = length fields - 1.
Proof.
  destruct 1 as [|f rest Hf Hrest]; [reflexivity|].
  rewrite join_cons, count_delims_app, (count_delims_none f Hf).
  rewrite (count_delims_separated rest Hrest). simpl. lia.
Qed.

Lemma parseCSVLine_no_delim line :
  Forall (fun f => ~ In COMMA f) (parseCSVLine line).
Proof.
  rewrite parseCSVLine_chunks. apply Forall_forall. intros f Hin.
  apply in_map_iff in Hin. destruct Hin as (x & <- & Hx).
  pose proof (chunks_no_delim COMMA line) as Hc.
  rewrite Forall_forall in Hc. specialize (Hc x Hx).
  intros H. apply in_cleanField in H. destruct H as [H|H];
    [discriminate|contradiction].
Qed.

Lemma length_parseCSVLine line :
  length (parseCSVLine line)
  + (if open_ended COMMA line then 1 else 0) = count_delims line + 1.
Proof.
  rewrite parseCSVLine_chunks, length_map. apply length_chunks.
Qed.

Lemma parseCSVLine_empty_line : parseCSVLine [] = [].
Proof. rewrite parseCSVLine_chunks. reflexivity. Qed.

Lemma open_ended_false delim line :
  line <> [] -> back line <> delim -> open_ended delim line = false.
Proof.
  intros Hne Hb. destruct line; [congruence|]. unfold open_ended.
  apply Ascii.eqb_neq. exact Hb.
Qed.

Lemma count_delims_written line :
  count_delims (writeCSVLine [] (parseCSVLine line))
  = length (parseCSVLine line) - 1.
Proof.
  pose proof (parseCSVLine_no_delim line) as Hnd.
  destruct (parseCSVLine line) as [|f rest]; [reflexivity|].
  rewrite writeCSVLine_cons. cbn [app].
  rewrite count_delims_app, (count_delims_join _ Hnd).
  change (count_delims [LF]) with 0. apply Nat.add_0_r.
Qed.

(** C2, as the code has it: the empty line gives no field; a non-empty line
    that does not end with ',' and holds k delimiters gives k + 1 fields, as
    many as its raw split, consecutive and leading delimiters included; and
    the line written for it holds k delimiters again, so it has the field
    count of the input line. *)
Theorem parseCSVLine_field_count :
  parseCSVLine [] = [] /\
  forall line,
    line <> [] -> back line <> COMMA ->
    length (parseCSVLine line) = count_delims line + 1 /\
    length (parseCSVLine line) = length (Spec.raw_split COMMA line) /\
    count_delims (writeCSVLine [] (parseCSVLine line)) = count_delims line.
Proof.
  split; [exact parseCSVLine_empty_line|].
  intros line Hne Hb.
  pose proof (length_parseCSVLine line) as Hlen.
  rewrite (open_ended_false COMMA line Hne Hb) in Hlen.
  assert (Hk : length (parseCSVLine line) = count_delims line + 1) by lia.
  split; [exact Hk|]. split.
  - rewrite length_raw_split. exact Hk.
  - rewrite count_delims_written. lia.
Qed.

Lemma parseCSVLine_field_count_witness :
  length (parseCSVLine (lit ",a,,b")) = count_delims (lit ",a,,b") + 1 /\
  length (parseCSVLine (lit ",a,,b")) = length (Spec.raw_split COMMA (lit ",a,,b")) /\
  count_delims (writeCSVLine [] (parseCSVLine (lit ",a,,b")))
  = count_delims (lit ",a,,b").
Proof.
  apply (proj2 parseCSVLine_field_count (lit ",a,,b")).
  - discriminate.
  - vm_compute. discriminate.
Defined.

(** C2, as stated, fails on the empty line (no field for no delimiter) and on
    a line that ends with the delimiter (two fields for two delimiters). *)
Lemma parseCSVLine_field_count_fails :
  length (parseCSVLine (lit "")) <> count_delims (lit "") + 1 /\
  length (parseCSVLine (lit "a,b,")) <> count_delims (lit "a,b,") + 1.
Proof. split; vm_compute; discriminate. Qed.

(** ** The two loops, line by line *)

Lemma read_loop_chunks input output :
  read_loop input output = fold_left emit (chunks LF input) output.
Proof.
  funelim (read_loop input output).
  - pose proof (chunks_getline LF input) as Hc. rewrite H in Hc.
    rewrite H0, Hc. reflexivity.
  - pose proof (chunks_getline LF input) as Hc. rewrite e in Hc.
    rewrite Hc. reflexivity.
Qed.

Lemma extract_offset delim s :
  extract delim s
  = (firstn (find_offset s delim) s, skipn (S (find_offset s delim)) s).
Proof.
  induction s as [|c s IH]; [reflexivity|]. simpl.
  destruct (Ascii.eqb c delim); [reflexivity|].
  rewrite IH. reflexivity.
Qed.

Lemma find_skipn mapped i :
  find mapped i (length mapped) LF = i + find_offset (skipn i mapped) LF.
Proof.
  unfold find, substr. rewrite firstn_all2; [reflexivity|].
  rewrite length_skipn. lia.
Qed.

Lemma removelast_firstn_prefix (s : str) k :
  k <= length s -> removelast (firstn k s) = firstn (k - 1) s.
Proof.
  intros Hk. rewrite removelast_firstn_len, length_firstn, firstn_firstn.
  f_equal. lia.
Qed.

Lemma back_firstn (s : str) k :
  0 < k <= length s -> back (firstn k s) = nth (k - 1) s NUL.
Proof.
  intros Hk. unfold back. rewrite length_firstn, nth_firstn.
  replace (Nat.min k (length s)) with k by lia.
  destruct (Nat.ltb_spec (k - 1) k); [reflexivity|lia].
Qed.

Lemma scan_body_output mapped i output :
  snd (scan_body mapped i output)
  = emit_mapped output (fst (extract LF (skipn i mapped))).
Proof.
  unfold scan_body. cbn [snd]. rewrite find_skipn, extract_offset. cbn [fst].
  set (s := skipn i mapped). set (k := find_offset s LF).
  pose proof (find_offset_le s LF) as Hk. fold k in Hk.
  destruct (Nat.ltb_spec i (i + k)) as [Hlt|Hge].
  - assert (Hpos : 0 < k) by lia. cbn [andb].
    replace (nth (i + k - 1) mapped NUL) with (back (firstn k s)).
    2:{ rewrite back_firstn by lia. unfold s. rewrite nth_skipn. f_equal. lia. }
    unfold emit_mapped.
    destruct (firstn k s) as [|c line] eqn:E.
    { apply (f_equal (@length ascii)) in E. rewrite length_firstn in E.
      simpl in E. lia. }
    rewrite <- E. unfold strip_cr, range, substr. fold s.
    destruct (Ascii.eqb (back (firstn k s)) CR).
    + rewrite removelast_firstn_prefix by lia. unfold emit.
      do 3 f_equal. lia.
    + unfold emit. do 3 f_equal. lia.
  - assert (k = 0) as -> by lia. reflexivity.
Qed.

Lemma scan_body_rest mapped i output :
  i < length mapped ->
  skipn (fst (scan_body mapped i output)) mapped
  = snd (extract LF (skipn i mapped)).
Proof.
  intros Hi. unfold scan_body. cbn [fst].
  rewrite find_skipn, extract_offset. cbn [snd].
  set (s := skipn i mapped). set (k := find_offset s LF).
  pose proof (find_offset_le s LF) as Hk. fold k in Hk.
  assert (Hs : length s = length mapped - i) by (unfold s; apply length_skipn).
  destruct (Nat.eqb_spec (i + k) (length mapped)) as [He|Hne].
  - rewrite !skipn_all2; [reflexivity|lia|lia].
  - unfold s. rewrite skipn_skipn. f_equal. lia.
Qed.

Lemma scan_loop_chunks mapped lineStart output :
  scan_loop mapped lineStart output
  = fold_left emit_mapped (chunks LF (skipn lineStart mapped)) output.
Proof.
  funelim (scan_loop mapped lineStart output).
  - pose proof (proj1 (Nat.ltb_lt _ _) H) as Hlt.
    rewrite H0, scan_body_output, scan_body_rest by exact Hlt.
    rewrite (chunks_extract LF (skipn lineStart mapped)); [reflexivity|].
    intros E. apply (f_equal (@length ascii)) in E.
    rewrite length_skipn in E. simpl in E. lia.
  - pose proof (proj1 (Nat.ltb_ge _ _) e) as Hge.
    rewrite skipn_all2 by exact Hge. reflexivity.
Qed.

Lemma fold_emit_app lines output :
  fold_left emit lines output = output ++ fold_left emit lines [].
Proof.
  revert output. induction lines as [|l lines IH]; intros output; simpl.
  - rewrite app_nil_r. reflexivity.
  - rewrite IH, (IH (emit [] l)). unfold emit.
    rewrite (writeCSVLine_app output), app_assoc. reflexivity.
Qed.

Lemma emit_app output line : emit output line = output ++ emit [] line.
Proof. unfold emit. apply writeCSVLine_app. Qed.

Lemma emit_mapped_app output line :
  emit_mapped output line = output ++ emit_mapped [] line.
Proof.
  destruct line; simpl; [rewrite app_nil_r; reflexivity|].
  unfold emit. apply writeCSVLine_app.
Qed.

Lemma fold_emit_mapped_app lines output :
  fold_left emit_mapped lines output
  = output ++ fold_left emit_mapped lines [].
Proof.
  revert output. induction lines as [|l lines IH]; intros output; simpl.
  - rewrite app_nil_r. reflexivity.
  - rewrite IH, (IH (emit_mapped [] l)).
    rewrite (emit_mapped_app output), app_assoc. reflexivity.
Qed.

(** ** Lines of a file *)

Lemma chunks_app_delim delim pre post :
  chunks delim (pre ++ delim :: post)
  = Spec.raw_split delim pre ++ chunks delim post.
Proof.
  induction pre as [|c pre IH]; simpl.
  - rewrite Ascii.eqb_refl. reflexivity.
  - rewrite IH. destruct (Ascii.eqb c delim); [reflexivity|].
    pose proof (raw_split_nonempty delim pre) as Hne.
    destruct (Spec.raw_split delim pre); [congruence|reflexivity].
Qed.

Lemma raw_split_single delim l :
  ~ In delim l -> Spec.raw_split delim l = [l].
Proof.
  induction l as [|c l IH]; [reflexivity|]. intros Hn. simpl.
  destruct (Ascii.eqb_spec c delim) as [->|Hne]; [elim Hn; left; reflexivity|].
  rewrite IH; [reflexivity|]. intros H. apply Hn. right. exact H.
Qed.

Lemma back_snoc (s : str) c : back (s ++ [c]) = c.
Proof. rewrite back_last. apply last_last. Qed.

Lemma snoc_back (s : str) : s <> [] -> s = removelast s ++ [back s].
Proof. intros H. rewrite back_last. apply app_removelast_last. exact H. Qed.

Lemma chunks_single delim l :
  l <> [] -> ~ In delim l -> chunks delim l = [l].
Proof.
  intros Hne Hn. pose proof (raw_split_chunks delim l) as H.
  rewrite (raw_split_single _ _ Hn) in H.
  rewrite open_ended_false in H; [rewrite app_nil_r in H; congruence|exact Hne|].
  intros Hb. apply Hn. rewrite (snoc_back l Hne), Hb.
  apply in_or_app. right. left. reflexivity.
Qed.

Lemma open_ended_inv delim head :
  open_ended delim head = true ->
  head = [] \/ head = removelast head ++ [delim].
Proof.
  destruct head as [|c head]; [left; reflexivity|]. intros H. right.
  unfold open_ended in H. apply Ascii.eqb_eq in H. rewrite <- H.
  apply snoc_back. discriminate.
Qed.

Lemma chunks_app_open delim head rest :
  open_ended delim head = true ->
  chunks delim (head ++ rest) = chunks delim head ++ chunks delim rest.
Proof.
  intros H. destruct (open_ended_inv _ _ H) as [->|E]; [reflexivity|].
  rewrite E, <- app_assoc. cbn [app].
  rewrite !chunks_app_delim. cbn [chunks]. rewrite app_nil_r. reflexivity.
Qed.

Lemma chunks_terminated delim l :
  l <> [] -> ~ In delim l -> chunks delim (l ++ [delim]) = [l].
Proof.
  intros Hne Hn. rewrite chunks_app_delim, (raw_split_single _ _ Hn).
  reflexivity.
Qed.

(** ** Blank lines *)

Lemma emit_empty_line output : emit output [] = output.
Proof. unfold emit. rewrite parseCSVLine_empty_line. reflexivity. Qed.

Lemma read_loop_blank_line pre post :
  read_loop (pre ++ [LF] ++ [LF] ++ post) []
  = read_loop (pre ++ [LF] ++ post) [].
Proof.
  rewrite !read_loop_chunks. cbn [app]. rewrite !chunks_app_delim.
  rewrite !fold_left_app. cbn [chunks]. rewrite Ascii.eqb_refl.
  cbn [fold_left]. rewrite emit_empty_line. reflexivity.
Qed.

Lemma scan_loop_blank_line pre post :
  scan_loop (pre ++ [LF] ++ [LF] ++ post) 0 []
  = scan_loop (pre ++ [LF] ++ post) 0 [].
Proof.
  rewrite !scan_loop_chunks. cbn [app skipn]. rewrite !chunks_app_delim.
  rewrite !fold_left_app. cbn [chunks]. rewrite Ascii.eqb_refl.
  reflexivity.
Qed.

(** C4, as the code has it: neither engine emits a line for an empty line
    ended by '\n'.  The streaming engine parses it into no field, for which
    nothing is written, and the mapped-scan engine skips it; the output of
    each engine is the same with and without the blank line. *)
Theorem blank_line_skipped_by_both_engines pre post creatable :
  parseCSVLine [] = [] /\
  processFile (Some (pre ++ [LF] ++ [LF] ++ post)) creatable
  = processFile (Some (pre ++ [LF] ++ post)) creatable /\
  processFileMemoryMapped (Some (pre ++ [LF] ++ [LF] ++ post)) creatable
  = processFileMemoryMapped (Some (pre ++ [LF] ++ post)) creatable.
Proof.
  split; [exact parseCSVLine_empty_line|].
  unfold processFile, processFileMemoryMapped.
  rewrite read_loop_blank_line, scan_loop_blank_line. split; reflexivity.
Qed.

(** C4, as stated, fails: on a blank line between two data lines the
    streaming engine writes no "0" line and the engines agree. *)
Lemma blank_line_no_divergence :
  processFile (Some (lit "a,b" ++ [LF] ++ [LF] ++ lit "c,d" ++ [LF])) true
  = Run true (Some (lit "a,b" ++ [LF] ++ lit "c,d" ++ [LF])) /\
  processFile (Some (lit "a,b" ++ [LF] ++ [LF] ++ lit "c,d" ++ [LF])) true
  <> Run true (Some (lit "a,b" ++ [LF] ++ lit "0" ++ [LF] ++ lit "c,d" ++ [LF])) /\
  processFileMemoryMapped
    (Some (lit "a,b" ++ [LF] ++ [LF] ++ lit "c,d" ++ [LF])) true
  = processFile (Some (lit "a,b" ++ [LF] ++ [LF] ++ lit "c,d" ++ [LF])) true.
Proof.
  split; [vm_compute; reflexivity|].
  split; [vm_compute; discriminate|vm_compute; reflexivity].
Qed.

(** ** A last line without newline *)

Lemma emit_mapped_nonempty output line :
  line <> [] -> emit_mapped output line = emit output (strip_cr line).
Proof. destruct line; [congruence|reflexivity]. Qed.

(** ** A line of delimiters only *)

(** C3: what the code does with the line ",,": [std::getline] finds nothing
    after the second delimiter and fails, so only two fields are parsed and
    both engines write "0,0" and a newline, not "0,0,0". *)
Theorem two_delimiters_line :
  parseCSVLine (lit ",,") = [lit "0"; lit "0"] /\
  processFile (Some (lit ",," ++ [LF])) true
  = Run true (Some (lit "0,0" ++ [LF])) /\
  processFileMemoryMapped (Some (lit ",," ++ [LF])) true
  = Run true (Some (lit "0,0" ++ [LF])) /\
  lit "0,0" ++ [LF] <> lit "0,0,0" ++ [LF].
Proof.
  split; [vm_compute; reflexivity|].
  split; [vm_compute; reflexivity|].
  split; [vm_compute; reflexivity|discriminate].
Qed.

(** ** Opening the files *)

(** C8: [processFile] fails exactly when the input does not open or the
    output cannot be created; with both open it succeeds and leaves the output
    of the loop; when the input does not open it fails before the output file
    is created. *)
Theorem processFile_failure :
  (forall input creatable,
      succeeded (processFile input creatable) = false
      <-> (input = None \/ creatable = false)) /\
  (forall contents,
      processFile (Some contents) true
      = Run true (Some (read_loop contents []))) /\
  (forall creatable, processFile None creatable = Run false None).
Proof.
  split; [|split; reflexivity].
  intros [contents|] [|]; simpl; split; auto; try discriminate.
  intros [H|H]; discriminate.
Qed.

(** ** The two engines compared *)

Lemma chunks_snoc delim c s :
  c <> delim -> open_ended delim s = false ->
  exists fs f,
    chunks delim s = fs ++ [f] /\ chunks delim (s ++ [c]) = fs ++ [f ++ [c]].
Proof.
  intros Hc. induction s as [|x s IH]; [discriminate|].
  destruct s as [|y s].
  - unfold open_ended, back. simpl. intros Hx.
    rewrite Hx, (proj2 (Ascii.eqb_neq c delim) Hc).
    exists [], [x]. split; reflexivity.
  - rewrite open_ended_cons. intros Ho.
    destruct (IH Ho) as (fs & f & E1 & E2).
    change ((x :: y :: s) ++ [c]) with (x :: (y :: s) ++ [c]).
    cbn [chunks] in *. rewrite E1, E2.
    destruct (Ascii.eqb x delim).
    + exists ([] :: fs), f. split; reflexivity.
    + destruct fs as [|g fs]; simpl.
      * exists [], (x :: f). split; reflexivity.
      * exists ((x :: g) :: fs), f. split; reflexivity.
Qed.

Lemma trim_snoc c s : mem c trim_set = true -> trim (s ++ [c]) = trim s.
Proof.
  intros Hc. rewrite !trim_drops, drop_leading_snoc, Hc.
  destruct (Spec.drop_leading (fun x => mem x trim_set) s) as [|y t];
    [reflexivity|].
  unfold Spec.drop_trailing. rewrite rev_app_distr. simpl rev at 2.
  cbn [app Spec.drop_leading]. rewrite Hc. reflexivity.
Qed.

Lemma cleanField_snoc c field :
  mem c trim_set = true -> cleanField (field ++ [c]) = cleanField field.
Proof. intros Hc. unfold cleanField. rewrite (trim_snoc c field Hc). reflexivity. Qed.

(** A final '\r' after a non-empty last field does not show in the parsed
    record. *)
Lemma parseCSVLine_snoc_cr line :
  open_ended COMMA line = false ->
  parseCSVLine (line ++ [CR]) = parseCSVLine line.
Proof.
  intros Ho. rewrite !parseCSVLine_chunks.
  destruct (chunks_snoc COMMA CR line) as (fs & f & -> & ->);
    [discriminate|exact Ho|].
  rewrite !map_app. simpl. rewrite cleanField_snoc by reflexivity.
  reflexivity.
Qed.

Lemma emit_cr_safe output line :
  cr_safe line = true -> emit output line = emit_mapped output line.
Proof.
  intros Hs. destruct line as [|c line]; [apply emit_empty_line|].
  rewrite emit_mapped_nonempty by discriminate.
  unfold strip_cr. destruct (Ascii.eqb_spec (back (c :: line)) CR) as [Hb|Hb];
    [|reflexivity].
  unfold cr_safe in Hs. rewrite Hb, Ascii.eqb_refl in Hs.
  cbn [negb orb] in Hs. apply negb_true_iff in Hs.
  unfold emit. rewrite <- (parseCSVLine_snoc_cr _ Hs), <- Hb.
  rewrite <- snoc_back by discriminate. reflexivity.
Qed.

Lemma chunks_snoc_open delim c s :
  c <> delim -> open_ended delim s = true ->
  chunks delim (s ++ [c]) = chunks delim s ++ [[c]].
Proof.
  intros Hc Ho. destruct (open_ended_inv _ _ Ho) as [->|E].
  - simpl. rewrite (proj2 (Ascii.eqb_neq c delim) Hc). reflexivity.
  - rewrite E, <- app_assoc. cbn [app]. rewrite !chunks_app_delim.
    cbn [chunks]. rewrite (proj2 (Ascii.eqb_neq c delim) Hc), app_nil_r.
    reflexivity.
Qed.

(** On the other lines the streaming engine sees one field more, the lone
    '\r', and writes "0" for it. *)
Lemma parseCSVLine_snoc_cr_open line :
  open_ended COMMA line = true ->
  parseCSVLine (line ++ [CR]) = parseCSVLine line ++ [lit "0"].
Proof.
  intros Ho. rewrite !parseCSVLine_chunks.
  rewrite (chunks_snoc_open COMMA CR line) by (discriminate || exact Ho).
  rewrite map_app. reflexivity.
Qed.

Lemma emit_differs_unsafe line :
  cr_safe line = false -> emit [] line <> emit_mapped [] line.
Proof.
  intros Hs. unfold cr_safe in Hs. apply orb_false_iff in Hs.
  destruct Hs as (Hb & Ho). apply negb_false_iff in Hb, Ho.
  apply Ascii.eqb_eq in Hb.
  destruct line as [|c line]; [discriminate|].
  rewrite emit_mapped_nonempty by discriminate.
  unfold strip_cr. rewrite Hb, Ascii.eqb_refl.
  rewrite (snoc_back (c :: line)) at 1 by discriminate. rewrite Hb.
  unfold emit. rewrite (parseCSVLine_snoc_cr_open _ Ho).
  intros E. apply (f_equal (@length ascii)) in E. revert E.
  destruct (parseCSVLine (removelast (c :: line))) as [|f rest].
  - discriminate.
  - cbn [app]. rewrite !writeCSVLine_cons. cbn [app].
    rewrite !join_cons, map_app, concat_app, !length_app. simpl.
    unfold str in *. lia.
Qed.

(** The engines agree on every file whose lines are all safe. *)
Lemma engines_agree contents :
  forallb cr_safe (chunks LF contents) = true ->
  read_loop contents [] = scan_loop contents 0 [].
Proof.
  rewrite read_loop_chunks, scan_loop_chunks. cbn [skipn].
  generalize (@nil ascii) as output.
  induction (chunks LF contents) as [|l lines IH]; intros output Hs;
    [reflexivity|].
  simpl in Hs. apply andb_true_iff in Hs. destruct Hs as (Hl & Hs).
  simpl. rewrite (emit_cr_safe _ _ Hl). apply IH. exact Hs.
Qed.

(** C1: a file with "\r\n" line ends and a blank line in it.  Its carriage
    returns all stand right before a newline, none inside a field, and the
    engines write different files: the streaming engine reads the blank line
    as the field "\r" and writes "0" for it, the mapped-scan engine strips
    the '\r' and writes nothing. *)
Theorem engines_differ_on_crlf_blank_line :
  crlf_only (lit "a,b" ++ [CR; LF] ++ [CR; LF] ++ lit "c,d" ++ [CR; LF]) = true /\
  processFile
    (Some (lit "a,b" ++ [CR; LF] ++ [CR; LF] ++ lit "c,d" ++ [CR; LF])) true
  = Run true (Some (lit "a,b" ++ [LF] ++ lit "0" ++ [LF] ++ lit "c,d" ++ [LF])) /\
  processFileMemoryMapped
    (Some (lit "a,b" ++ [CR; LF] ++ [CR; LF] ++ lit "c,d" ++ [CR; LF])) true
  = Run true (Some (lit "a,b" ++ [LF] ++ lit "c,d" ++ [LF])) /\
  processFile
    (Some (lit "a,b" ++ [CR; LF] ++ [CR; LF] ++ lit "c,d" ++ [CR; LF])) true
  <> processFileMemoryMapped
       (Some (lit "a,b" ++ [CR; LF] ++ [CR; LF] ++ lit "c,d" ++ [CR; LF])) true.
Proof.
  split; [reflexivity|].
  split; [vm_compute; reflexivity|].
  split; [vm_compute; reflexivity|vm_compute; discriminate].
Qed.

(** The same happens on a "\r\n" line whose last field is empty. *)
Example engines_differ_on_crlf_empty_last_field :
  read_loop (lit "a," ++ [CR; LF]) [] = lit "a,0" ++ [LF] /\
  scan_loop (lit "a," ++ [CR; LF]) 0 [] = lit "a" ++ [LF].
Proof. split; vm_compute; reflexivity. Qed.

(** * Further properties of the cleaner *)

(** ** What [trim] keeps *)

Lemma drop_leading_split p s :
  exists pre, s = pre ++ Spec.drop_leading p s /\ forallb p pre = true.
Proof.
  induction s as [|c s (pre & E & Hp)]; [exists []; split; reflexivity|].
  simpl. destruct (p c) eqn:Hc.
  - exists (c :: pre). simpl. rewrite Hc, Hp. split; [f_equal; exact E|reflexivity].
  - exists []. split; reflexivity.
Qed.

Lemma forallb_rev_ascii (p : ascii -> bool) s :
  forallb p s = true -> forallb p (rev s) = true.
Proof.
  rewrite !forallb_forall. intros H c Hin. apply H, in_rev. exact Hin.
Qed.

Lemma drop_trailing_split p s :
  exists post, s = Spec.drop_trailing p s ++ post /\ forallb p post = true.
Proof.
  unfold Spec.drop_trailing.
  destruct (drop_leading_split p (rev s)) as (pre & E & Hp).
  exists (rev pre). split; [|apply forallb_rev_ascii; exact Hp].
  rewrite <- rev_app_distr, <- E, rev_involutive. reflexivity.
Qed.

(** [trim] returns a middle part of its argument: what it leaves out in
    front and behind consists of characters of the set, and what it keeps
    is empty or starts and ends outside the set. *)
Theorem trim_keeps_the_middle s :
  exists pre post,
    s = pre ++ trim s ++ post /\
    forallb in_trim_set pre = true /\ forallb in_trim_set post = true /\
    (trim s = [] \/
     in_trim_set (front (trim s)) = false /\
     in_trim_set (back (trim s)) = false).
Proof.
  destruct (drop_leading_split in_trim_set s) as (pre & E1 & H1).
  destruct (drop_trailing_split in_trim_set (Spec.drop_leading in_trim_set s))
    as (post & E2 & H2).
  exists pre, post. rewrite trim_drops.
  change (fun x => mem x trim_set) with in_trim_set.
  split; [rewrite <- E2; exact E1|]. split; [exact H1|]. split; [exact H2|].
  rewrite <- trim_drops.
  destruct (trim s) eqn:E; [left; reflexivity|right].
  rewrite <- E. apply trim_ends. rewrite E. discriminate.
Qed.

(** Trimming twice is trimming once. *)
Theorem trim_idempotent s : trim (trim s) = trim s.
Proof.
  destruct (trim s) eqn:E; [reflexivity|]. rewrite <- E.
  assert (Hne : trim s <> []) by (rewrite E; discriminate).
  destruct (trim_ends s Hne) as (Hf & Hb).
  apply trim_fixed; assumption.
Qed.

Lemma trim_app_front ws s :
  forallb in_trim_set ws = true -> trim (ws ++ s) = trim s.
Proof.
  induction ws as [|c ws IH]; [reflexivity|]. simpl.
  intros H. apply andb_true_iff in H. destruct H as (Hc & Hws).
  rewrite trim_cons_in by exact Hc. apply IH. exact Hws.
Qed.

Lemma trim_app_back ws s :
  forallb in_trim_set ws = true -> trim (s ++ ws) = trim s.
Proof.
  revert s. induction ws as [|c ws IH]; intros s.
  - rewrite app_nil_r. reflexivity.
  - simpl. intros H. apply andb_true_iff in H. destruct H as (Hc & Hws).
    change (s ++ c :: ws) with (s ++ [c] ++ ws). rewrite app_assoc.
    rewrite IH by exact Hws. apply trim_snoc. exact Hc.
Qed.

(** ** What [cleanField] returns *)

(** Spaces, tabs, carriage returns and newlines around a field do not
    change what it is cleaned to. *)
Theorem cleanField_ignores_surrounding_blanks ws1 field ws2 :
  forallb in_trim_set ws1 = true -> forallb in_trim_set ws2 = true ->
  cleanField (ws1 ++ field ++ ws2) = cleanField field.
Proof.
  intros H1 H2. unfold cleanField.
  rewrite (trim_app_front _ _ H1), (trim_app_back _ _ H2). reflexivity.
Qed.

Lemma cleanField_ignores_surrounding_blanks_witness :
  cleanField (lit "  " ++ lit "-" ++ [TAB; CR]) = cleanField (lit "-").
Proof.
  apply (cleanField_ignores_surrounding_blanks (lit "  ") (lit "-") [TAB; CR]);
    reflexivity.
Defined.

Lemma all_of_In p s : all_of p s = true <-> (forall c, In c s -> p c = true).
Proof. rewrite all_of_forallb. apply forallb_forall. Qed.

Lemma front_In (s : str) : s <> [] -> In (front s) s.
Proof. destruct s; [congruence|]. intros _. left. reflexivity. Qed.

(** A field made of white space only ([std::isspace]: space, tab, newline,
    vertical tab, form feed, carriage return) is cleaned to "0", whatever
    its length. *)
Theorem cleanField_blank_field field :
  all_of isspace field = true -> cleanField field = lit "0".
Proof.
  intros Hall.
  assert (Ht : all_of isspace (trim field) = true).
  { apply all_of_In. intros c Hin. apply in_trim in Hin.
    revert c Hin. apply all_of_In. exact Hall. }
  assert (Hq : is_quoted (trim field) = false).
  { destruct (is_quoted (trim field)) eqn:Hq; [|reflexivity].
    pose proof (is_quoted_length _ Hq) as Hlen.
    unfold is_quoted in Hq. rewrite !andb_true_iff in Hq.
    destruct Hq as ((_ & Hf) & _). apply Ascii.eqb_eq in Hf.
    assert (Hne : trim field <> []) by (intros E; rewrite E in Hlen; simpl in Hlen; lia).
    pose proof (proj1 (all_of_In isspace (trim field)) Ht _ (front_In _ Hne)) as Hs.
    rewrite Hf in Hs. discriminate. }
  unfold cleanField, unquote. rewrite Hq.
  unfold is_placeholder. rewrite Ht, !orb_true_r. reflexivity.
Qed.

Lemma cleanField_blank_field_witness :
  cleanField [SPACE; "011"%char; TAB; SPACE] = lit "0".
Proof. apply cleanField_blank_field. reflexivity. Defined.

Lemma substr_quoted g :
  substr ([DQUOTE] ++ g ++ [DQUOTE]) 1 (length ([DQUOTE] ++ g ++ [DQUOTE]) - 2)
  = g.
Proof.
  unfold substr. cbn [app skipn length]. rewrite length_app. simpl.
  assert (Hlen : length g + 1 - 1 = length g + 0) by lia.
  rewrite Hlen, firstn_app_2. simpl. apply app_nil_r.
Qed.

(** A field enclosed in double quotes is cleaned to what is between the
    quotes, unchanged (blanks inside the quotes are kept), or to "0" when
    that is empty, white space only, "-" or "--". *)
Theorem cleanField_quoted_field g :
  cleanField ([DQUOTE] ++ g ++ [DQUOTE])
  = if is_placeholder g then lit "0" else g.
Proof.
  set (q := [DQUOTE] ++ g ++ [DQUOTE]).
  assert (Hb : back q = DQUOTE).
  { unfold q. rewrite app_assoc. apply back_snoc. }
  assert (Ht : trim q = q).
  { apply trim_fixed; [discriminate|reflexivity|rewrite Hb; reflexivity]. }
  assert (Hq : is_quoted q = true).
  { unfold is_quoted. rewrite Hb. unfold q. cbn [app length front nth].
    rewrite length_app. simpl. rewrite Nat.add_comm. reflexivity. }
  unfold cleanField, unquote. rewrite Ht, Hq. unfold q.
  rewrite substr_quoted. reflexivity.
Qed.

(** The fields [cleanField] leaves as they are: the non-empty settled ones
    that are no placeholder. *)
Theorem cleanField_fixed_points g :
  cleanField g = g <->
  g <> [] /\ settled g = true /\ is_placeholder g = false.
Proof.
  split.
  - intros Hfix. split; [|split].
    + rewrite <- Hfix. apply cleanField_result_nonempty.
    + apply cleanField_fixed_settled. exact Hfix.
    + rewrite <- Hfix. apply cleanField_not_placeholder.
  - intros (Hne & Hs & Hp). apply cleanField_fixed; assumption.
Qed.

Lemma substr_split s pos n :
  s = firstn pos s ++ substr s pos n ++ skipn n (skipn pos s).
Proof.
  unfold substr. rewrite (firstn_skipn n (skipn pos s)).
  symmetry. apply firstn_skipn.
Qed.

Lemma trim_split s : exists pre post, s = pre ++ trim s ++ post.
Proof.
  destruct (drop_leading_split in_trim_set s) as (pre & E1 & _).
  destruct (drop_trailing_split in_trim_set (Spec.drop_leading in_trim_set s))
    as (post & E2 & _).
  exists pre, post. rewrite trim_drops.
  change (fun x => mem x trim_set) with in_trim_set.
  rewrite <- E2. exact E1.
Qed.

(** [cleanField] makes up no text: its result is "0" or a part of the field
    in one piece, so it is never longer than the field, "0" apart. *)
Theorem cleanField_part_of_field field :
  (cleanField field = lit "0" \/
   exists pre post, field = pre ++ cleanField field ++ post) /\
  length (cleanField field) <= Nat.max 1 (length field).
Proof.
  assert (Hpart : cleanField field = lit "0" \/
                  exists pre post, field = pre ++ cleanField field ++ post).
  { destruct (cleanField_cases field) as [(H & _) | (H & _)]; [left; exact H|].
    right. rewrite H. destruct (trim_split field) as (pre & post & E).
    unfold unquote. destruct (is_quoted (trim field)).
    - exists (pre ++ firstn 1 (trim field)),
             (skipn (length (trim field) - 2) (skipn 1 (trim field)) ++ post).
      rewrite E at 1.
      rewrite (substr_split (trim field) 1 (length (trim field) - 2)) at 1.
      rewrite <- !app_assoc. reflexivity.
    - exists pre, post. exact E. }
  split; [exact Hpart|].
  destruct Hpart as [->|(pre & post & E)]; [apply Nat.le_max_l|].
  apply (f_equal (@length ascii)) in E. rewrite !length_app in E.
  unfold str in *. lia.
Qed.

(** ** Parsing and writing a line *)

(** The record of a line is its raw split, piece by piece and in order,
    each piece cleaned; only a last empty piece (of an empty line or after a
    final delimiter) is missing. *)
Theorem parseCSVLine_cleans_raw_split line :
  map cleanField (Spec.raw_split COMMA line)
  = parseCSVLine line ++ (if open_ended COMMA line then [lit "0"] else []).
Proof.
  rewrite raw_split_chunks, map_app, parseCSVLine_chunks.
  destruct (open_ended COMMA line); reflexivity.
Qed.

Lemma join_raw_split sep s : Spec.join sep (Spec.raw_split sep s) = s.
Proof.
  induction s as [|c s IH]; [reflexivity|]. cbn [Spec.raw_split].
  pose proof (raw_split_nonempty sep s) as Hne.
  destruct (Spec.raw_split sep s) as [|f rest]; [congruence|].
  rewrite join_cons in IH.
  destruct (Ascii.eqb_spec c sep) as [->|Hc].
  - rewrite join_cons. cbn [map concat app]. rewrite IH. reflexivity.
  - rewrite join_cons. cbn [app]. rewrite IH. reflexivity.
Qed.

Lemma map_fixed (g : str -> str) l :
  Forall (fun f => g f = f) l -> map g l = l.
Proof.
  induction 1 as [|f l Hf _ IH]; [reflexivity|]. simpl. rewrite Hf, IH.
  reflexivity.
Qed.

(** A line that is clean already is written back byte for byte: when its
    last piece is not empty and [cleanField] changes none of its pieces, the
    engine emits the line itself and a newline. *)
Theorem clean_line_unchanged line :
  open_ended COMMA line = false ->
  Forall (fun f => cleanField f = f) (Spec.raw_split COMMA line) ->
  emit [] line = line ++ [LF].
Proof.
  intros Ho Hfix. pose proof (raw_split_chunks COMMA line) as E.
  rewrite Ho, app_nil_r in E. unfold emit.
  rewrite parseCSVLine_chunks, <- E, (map_fixed cleanField _ Hfix).
  pose proof (raw_split_nonempty COMMA line) as Hne.
  pose proof (join_raw_split COMMA line) as Hj.
  destruct (Spec.raw_split COMMA line) as [|f rest]; [congruence|].
  rewrite writeCSVLine_cons, Hj. reflexivity.
Qed.

Lemma clean_line_unchanged_witness :
  emit [] (lit "2024-03-01,12.5,0,NW") = lit "2024-03-01,12.5,0,NW" ++ [LF].
Proof.
  apply clean_line_unchanged.
  - reflexivity.
  - vm_compute. repeat constructor.
Defined.

Lemma chunks_join sep fields :
  fields <> [] ->
  Forall (fun f => f <> [] /\ ~ In sep f) fields ->
  chunks sep (Spec.join sep fields) = fields.
Proof.
  induction fields as [|f rest IH]; [congruence|]. intros _ Hall.
  inversion Hall as [|? ? (Hne & Hn) Hrest]; subst.
  destruct rest as [|g rest].
  - apply chunks_single; assumption.
  - change (Spec.join sep (f :: g :: rest))
      with (f ++ sep :: Spec.join sep (g :: rest)).
    rewrite chunks_app_delim, (raw_split_single _ _ Hn), IH;
      [reflexivity|discriminate|exact Hrest].
Qed.

Lemma extract_line delim l rest :
  ~ In delim l -> extract delim (l ++ delim :: rest) = (l, rest).
Proof.
  induction l as [|c l IH]; intros Hn; simpl.
  - rewrite Ascii.eqb_refl. reflexivity.
  - destruct (Ascii.eqb_spec c delim) as [->|Hc]; [elim Hn; left; reflexivity|].
    rewrite IH; [reflexivity|]. intros H. apply Hn. right. exact H.
Qed.

Lemma getline_line delim l rest :
  ~ In delim l -> getline (l ++ delim :: rest) delim = Some (l, rest).
Proof.
  intros Hn. unfold getline.
  destruct (l ++ delim :: rest) eqn:E; [destruct l; discriminate|].
  rewrite <- E, (extract_line _ _ _ Hn). reflexivity.
Qed.

Lemma in_join c sep fields :
  In c (Spec.join sep fields) ->
  c = sep \/ exists f, In f fields /\ In c f.
Proof.
  induction fields as [|f rest IH]; [intros []|].
  rewrite join_cons. intros H. apply in_app_or in H. destruct H as [H|H].
  - right. exists f. split; [left; reflexivity|exact H].
  - clear IH. induction rest as [|g rest IH]; [destruct H|].
    simpl in H. destruct H as [H|H]; [left; symmetry; exact H|].
    apply in_app_or in H. destruct H as [H|H].
    + right. exists g. split; [right; left; reflexivity|exact H].
    + destruct (IH H) as [E|(f' & [Hf|Hf] & Hc)]; [left; exact E| |].
      * right. exists f'. split; [left; exact Hf|exact Hc].
      * right. exists f'. split; [right; right; exact Hf|exact Hc].
Qed.

(** Write, then read: what [writeCSVLine] writes for fields without comma
    and newline, none of them empty, comes back from [getline] as one line,
    and [parseCSVLine] finds the same fields in it, in order, each cleaned
    once more. *)
Theorem written_line_reads_back fields :
  fields <> [] ->
  Forall (fun f => f <> [] /\ ~ In COMMA f) fields ->
  Forall (fun f => ~ In LF f) fields ->
  getline (writeCSVLine [] fields) LF = Some (Spec.join COMMA fields, []) /\
  parseCSVLine (Spec.join COMMA fields) = map cleanField fields.
Proof.
  intros Hne Hall Hlf. split.
  - destruct fields as [|f rest]; [congruence|].
    rewrite writeCSVLine_cons. cbn [app].
    assert (Hn : ~ In LF (Spec.join COMMA (f :: rest))).
    { intros Hin. apply in_join in Hin.
      destruct Hin as [E|(g & Hg & Hc)]; [discriminate|].
      rewrite Forall_forall in Hlf. exact (Hlf g Hg Hc). }
    apply getline_line. exact Hn.
  - rewrite parseCSVLine_chunks, chunks_join by assumption. reflexivity.
Qed.

Lemma written_line_reads_back_witness :
  getline (writeCSVLine [] [lit "a"; lit " b"; lit "0"]) LF
  = Some (Spec.join COMMA [lit "a"; lit " b"; lit "0"], []) /\
  parseCSVLine (Spec.join COMMA [lit "a"; lit " b"; lit "0"])
  = map cleanField [lit "a"; lit " b"; lit "0"].
Proof.
  apply written_line_reads_back.
  - discriminate.
  - repeat constructor; try discriminate; vm_compute; intuition discriminate.
  - repeat constructor; vm_compute; intuition discriminate.
Defined.

(** ** Files, line by line *)

(** Both engines can be run on a file in parts: cut after a newline (or
    before the first byte), the output of the whole is the output of the
    first part followed by the output of the second. *)
Theorem engines_split_at_line_end part1 part2 :
  open_ended LF part1 = true ->
  read_loop (part1 ++ part2) []
  = read_loop part1 [] ++ read_loop part2 [] /\
  scan_loop (part1 ++ part2) 0 []
  = scan_loop part1 0 [] ++ scan_loop part2 0 [].
Proof.
  intros Ho. rewrite !read_loop_chunks, !scan_loop_chunks. cbn [skipn].
  rewrite (chunks_app_open LF part1 part2 Ho), !fold_left_app.
  split; [apply fold_emit_app|apply fold_emit_mapped_app].
Qed.

Lemma engines_split_at_line_end_witness :
  read_loop ((lit "a,-" ++ [LF]) ++ lit "b,") []
  = read_loop (lit "a,-" ++ [LF]) [] ++ read_loop (lit "b,") [] /\
  scan_loop ((lit "a,-" ++ [LF]) ++ lit "b,") 0 []
  = scan_loop (lit "a,-" ++ [LF]) 0 [] ++ scan_loop (lit "b,") 0 [].
Proof. apply engines_split_at_line_end. reflexivity. Defined.

Lemma not_in_snoc (c d : ascii) l : ~ In c l -> c <> d -> ~ In c (l ++ [d]).
Proof.
  intros Hn Hd H. apply in_app_or in H. destruct H as [H|[H|[]]];
    [exact (Hn H)|exact (Hd (eq_sym H))].
Qed.

(** A line whose last field is not empty gives the same output whether it
    ends with "\r\n" or with "\n": the streaming engine trims the '\r' off
    the last field, the mapped-scan engine takes it off the line (there the
    line must not end with a '\r' of its own). *)
Theorem line_end_crlf_or_lf before line after :
  open_ended LF before = true -> ~ In LF line ->
  open_ended COMMA line = false -> back line <> CR ->
  read_loop (before ++ line ++ [CR; LF] ++ after) []
  = read_loop (before ++ line ++ [LF] ++ after) [] /\
  scan_loop (before ++ line ++ [CR; LF] ++ after) 0 []
  = scan_loop (before ++ line ++ [LF] ++ after) 0 [].
Proof.
  intros Hb Hn Ho Hcr.
  assert (Hne : line <> []) by (intros ->; discriminate).
  assert (Hn' : ~ In LF (line ++ [CR])) by (apply not_in_snoc; [exact Hn|discriminate]).
  rewrite !read_loop_chunks, !scan_loop_chunks. cbn [skipn].
  rewrite !(chunks_app_open LF before _ Hb), !fold_left_app.
  change (line ++ [CR; LF] ++ after) with (line ++ [CR] ++ LF :: after).
  rewrite app_assoc. change (line ++ [LF] ++ after) with (line ++ LF :: after).
  rewrite !chunks_app_delim, (raw_split_single _ _ Hn), (raw_split_single _ _ Hn').
  cbn [app fold_left]. split; f_equal.
  - unfold emit. rewrite (parseCSVLine_snoc_cr _ Ho). reflexivity.
  - rewrite !emit_mapped_nonempty by (exact Hne || (destruct line; discriminate)).
    unfold strip_cr. rewrite back_snoc, Ascii.eqb_refl, removelast_last.
    rewrite (proj2 (Ascii.eqb_neq _ _) Hcr). reflexivity.
Qed.

Lemma line_end_crlf_or_lf_witness :
  read_loop ((lit "h" ++ [LF]) ++ lit "1,-" ++ [CR; LF] ++ lit "2,3") []
  = read_loop ((lit "h" ++ [LF]) ++ lit "1,-" ++ [LF] ++ lit "2,3") [] /\
  scan_loop ((lit "h" ++ [LF]) ++ lit "1,-" ++ [CR; LF] ++ lit "2,3") 0 []
  = scan_loop ((lit "h" ++ [LF]) ++ lit "1,-" ++ [LF] ++ lit "2,3") 0 [].
Proof.
  apply line_end_crlf_or_lf.
  - reflexivity.
  - vm_compute. intuition discriminate.
  - reflexivity.
  - vm_compute. discriminate.
Defined.

(** ** The lines of the output *)

Lemma chunks_In delim s f c : In f (chunks delim s) -> In c f -> In c s.
Proof.
  revert f. induction s as [|x s IH]; intros f; [intros []|]. simpl.
  destruct (Ascii.eqb x delim).
  - intros [<-|Hf] Hc; [destruct Hc|]. right. exact (IH f Hf Hc).
  - destruct (chunks delim s) as [|g r].
    + intros [<-|[]] [<-|[]]. left. reflexivity.
    + intros [<-|Hf] Hc.
      * destruct Hc as [<-|Hc]; [left; reflexivity|].
        right. apply (IH g); [left; reflexivity|exact Hc].
      * right. apply (IH f); [right; exact Hf|exact Hc].
Qed.

Lemma parseCSVLine_nonempty line : line <> [] -> parseCSVLine line <> [].
Proof.
  intros Hne E. rewrite parseCSVLine_chunks in E.
  apply map_eq_nil in E. apply chunks_nil_inv in E. exact (Hne E).
Qed.

Lemma parseCSVLine_fields_nonempty line :
  Forall (fun f => f <> []) (parseCSVLine line).
Proof.
  rewrite parseCSVLine_chunks. apply Forall_forall.
  intros f Hin. apply in_map_iff in Hin. destruct Hin as (x & <- & _).
  apply cleanField_result_nonempty.
Qed.

Lemma emit_record line :
  emit [] line = if nonblank line then record line ++ [LF] else [].
Proof.
  destruct line as [|c line]; [apply emit_empty_line|].
  unfold emit, record. cbn [nonblank empty negb].
  pose proof (parseCSVLine_nonempty (c :: line)) as Hne.
  destruct (parseCSVLine (c :: line)) as [|f rest];
    [elim Hne; [discriminate|reflexivity]|].
  apply writeCSVLine_cons.
Qed.

Lemma fold_emit_concat lines :
  fold_left emit lines []
  = concat (map (fun r => r ++ [LF]) (map record (filter nonblank lines))).
Proof.
  induction lines as [|l lines IH]; [reflexivity|].
  cbn [fold_left]. rewrite fold_emit_app, IH, emit_record. cbn [filter].
  destruct (nonblank l); reflexivity.
Qed.

Lemma read_loop_records contents :
  read_loop contents [] = concat (map (fun r => r ++ [LF]) (records contents)).
Proof. rewrite read_loop_chunks. apply fold_emit_concat. Qed.

Lemma chunks_lines rs :
  Forall (fun r => ~ In LF r) rs ->
  chunks LF (concat (map (fun r => r ++ [LF]) rs)) = rs.
Proof.
  induction 1 as [|r rs Hr _ IH]; [reflexivity|].
  cbn [map concat]. rewrite <- app_assoc. cbn [app].
  rewrite chunks_app_delim, (raw_split_single _ _ Hr), IH. reflexivity.
Qed.

Lemma parseCSVLine_In line f c :
  In f (parseCSVLine line) -> In c f -> c = "0"%char \/ In c line.
Proof.
  rewrite parseCSVLine_chunks. intros Hf Hc.
  apply in_map_iff in Hf. destruct Hf as (x & <- & Hx).
  apply in_cleanField in Hc. destruct Hc as [E|Hc]; [left; exact E|].
  right. exact (chunks_In COMMA line x c Hx Hc).
Qed.

Lemma record_In line c : In c (record line) -> c = COMMA \/ c = "0"%char \/ In c line.
Proof.
  unfold record. intros H. apply in_join in H.
  destruct H as [E|(f & Hf & Hc)]; [left; exact E|].
  right. exact (parseCSVLine_In line f c Hf Hc).
Qed.

Lemma records_no_newline contents :
  Forall (fun r => ~ In LF r) (records contents).
Proof.
  unfold records. apply Forall_forall. intros r Hr.
  apply in_map_iff in Hr. destruct Hr as (l & <- & Hl).
  apply filter_In in Hl. destruct Hl as (Hl & _).
  pose proof (chunks_no_delim LF contents) as Hn.
  rewrite Forall_forall in Hn. specialize (Hn l Hl).
  intros H. apply record_In in H.
  destruct H as [E|[E|H]]; [discriminate|discriminate|exact (Hn H)].
Qed.

Lemma record_nonblank line : line <> [] -> nonblank (record line) = true.
Proof.
  intros Hne. unfold record.
  pose proof (parseCSVLine_nonempty line Hne) as Hp.
  pose proof (parseCSVLine_fields_nonempty line) as Hf.
  destruct (parseCSVLine line) as [|f rest]; [congruence|].
  inversion Hf as [|? ? Hfne _]; subst. rewrite join_cons.
  destruct f; [congruence|reflexivity].
Qed.

(** ** A last line without newline, in bytes *)

(** C9: a non-empty last line [l] that no '\n' ends is handled by both
    engines as a line of its own and causes no error.  The streaming engine
    writes its record, the cleaned fields joined by ',', which is not empty,
    and a newline after the output for the lines before it; the mapped-scan
    engine does the same with the line without its final '\r' (and writes
    nothing if nothing but that '\r' is there, as for every such line).
    Both runs succeed, and the output is the one the same file gives with a
    '\n' at its end. *)
Theorem truncated_final_line head l :
  open_ended LF head = true -> l <> [] -> ~ In LF l ->
  (emit [] l = record l ++ [LF] /\ record l <> [] /\
   parseCSVLine l <> []) /\
  emit [] (strip_cr l)
  = (if nonblank (strip_cr l) then record (strip_cr l) ++ [LF] else []) /\
  processFile (Some (head ++ l)) true
  = Run true (Some (read_loop head [] ++ record l ++ [LF])) /\
  processFileMemoryMapped (Some (head ++ l)) true
  = Run true (Some (scan_loop head 0 [] ++ emit [] (strip_cr l))) /\
  processFile (Some (head ++ l)) true
  = processFile (Some (head ++ l ++ [LF])) true /\
  processFileMemoryMapped (Some (head ++ l)) true
  = processFileMemoryMapped (Some (head ++ l ++ [LF])) true.
Proof.
  intros Hhead Hne Hn.
  assert (Hrec : emit [] l = record l ++ [LF]).
  { rewrite emit_record. destruct l; [congruence|reflexivity]. }
  split; [split; [exact Hrec|split]|].
  - pose proof (record_nonblank l Hne) as Hnb. intros E. rewrite E in Hnb.
    discriminate.
  - apply parseCSVLine_nonempty. exact Hne.
  - split; [apply emit_record|].
    rewrite <- Hrec. unfold processFile, processFileMemoryMapped.
    rewrite !read_loop_chunks, !scan_loop_chunks. cbn [skipn].
    rewrite !(chunks_app_open LF head _ Hhead).
    rewrite (chunks_single LF l Hne Hn), (chunks_terminated LF l Hne Hn).
    rewrite !fold_left_app. cbn [fold_left].
    rewrite (emit_mapped_nonempty _ l Hne).
    rewrite (emit_app (fold_left emit _ _)).
    rewrite (emit_app (fold_left emit_mapped _ _)).
    repeat split; reflexivity.
Qed.

Lemma truncated_final_line_witness :
  ((emit [] (lit "1,-") = record (lit "1,-") ++ [LF] /\
    record (lit "1,-") <> [] /\ parseCSVLine (lit "1,-") <> []) /\
   emit [] (strip_cr (lit "1,-"))
   = (if nonblank (strip_cr (lit "1,-"))
      then record (strip_cr (lit "1,-")) ++ [LF] else []) /\
   processFile (Some ((lit "h,x" ++ [LF]) ++ lit "1,-")) true
   = Run true (Some (read_loop (lit "h,x" ++ [LF]) []
                     ++ record (lit "1,-") ++ [LF])) /\
   processFileMemoryMapped (Some ((lit "h,x" ++ [LF]) ++ lit "1,-")) true
   = Run true (Some (scan_loop (lit "h,x" ++ [LF]) 0 []
                     ++ emit [] (strip_cr (lit "1,-")))) /\
   processFile (Some ((lit "h,x" ++ [LF]) ++ lit "1,-")) true
   = processFile (Some ((lit "h,x" ++ [LF]) ++ lit "1,-" ++ [LF])) true /\
   processFileMemoryMapped (Some ((lit "h,x" ++ [LF]) ++ lit "1,-")) true
   = processFileMemoryMapped
       (Some ((lit "h,x" ++ [LF]) ++ lit "1,-" ++ [LF])) true) /\
  processFile (Some ((lit "h,x" ++ [LF]) ++ lit "1,-")) true
  = Run true (Some (lit "h,x" ++ [LF] ++ lit "1,0" ++ [LF])) /\
  processFileMemoryMapped (Some ((lit "h,x" ++ [LF]) ++ lit "1,-")) true
  = Run true (Some (lit "h,x" ++ [LF] ++ lit "1,0" ++ [LF])).
Proof.
  split.
  - apply (truncated_final_line (lit "h,x" ++ [LF]) (lit "1,-")).
    + reflexivity.
    + discriminate.
    + vm_compute. intuition discriminate.
  - split; vm_compute; reflexivity.
Defined.

Lemma records_nonblank contents :
  filter nonblank (records contents) = records contents.
Proof.
  apply forallb_filter_id, forallb_forall. intros r Hr. unfold records in Hr.
  apply in_map_iff in Hr. destruct Hr as (l & <- & Hl).
  apply filter_In in Hl. destruct Hl as (_ & Hnb).
  apply record_nonblank. intros ->. discriminate.
Qed.

Lemma back_app (x y : str) : y <> [] -> back (x ++ y) = back y.
Proof.
  intros Hne. rewrite (snoc_back y Hne), app_assoc, !back_snoc. reflexivity.
Qed.

Lemma open_ended_lines rs :
  open_ended LF (concat (map (fun r => r ++ [LF]) rs)) = true.
Proof.
  induction rs as [|r rs IH]; [reflexivity|]. cbn [map concat].
  destruct (concat (map (fun r0 => r0 ++ [LF]) rs)) as [|c rest] eqn:E.
  - rewrite app_nil_r. destruct (r ++ [LF]) eqn:Er;
      [destruct r; discriminate|].
    unfold open_ended. rewrite <- Er, back_snoc. reflexivity.
  - destruct ((r ++ [LF]) ++ c :: rest) eqn:Er;
      [destruct r; discriminate|].
    unfold open_ended in *. rewrite <- Er, back_app by discriminate. exact IH.
Qed.

Lemma streaming_lines_records contents :
  chunks LF (read_loop contents []) = records contents.
Proof.
  rewrite read_loop_records.
  apply chunks_lines, records_no_newline.
Qed.

(** The output of the streaming engine, read line by line, is the records
    of the non-empty lines of the input, one output line for each and in the
    same order (empty lines leave nothing); and it is empty or ends with a
    newline. *)
Theorem streaming_output_lines contents :
  chunks LF (read_loop contents [])
  = map record (filter nonblank (chunks LF contents)) /\
  length (chunks LF (read_loop contents []))
  = length (filter nonblank (chunks LF contents)) /\
  open_ended LF (read_loop contents []) = true.
Proof.
  rewrite streaming_lines_records. split; [reflexivity|].
  split; [apply length_map|].
  rewrite read_loop_records. apply open_ended_lines.
Qed.

(** ** Cleaning a cleaned file *)

Lemma unquoted_without_quote x : ~ In DQUOTE x -> is_quoted (trim x) = false.
Proof.
  intros Hn. destruct (is_quoted (trim x)) eqn:Hq; [|reflexivity].
  pose proof (is_quoted_length _ Hq) as Hlen.
  unfold is_quoted in Hq. rewrite !andb_true_iff in Hq.
  destruct Hq as ((_ & Hf) & _). apply Ascii.eqb_eq in Hf.
  elim Hn. apply in_trim. rewrite <- Hf. apply front_In.
  intros E. rewrite E in Hlen. simpl in Hlen. lia.
Qed.

Lemma record_again line :
  ~ In DQUOTE line -> record (record line) = record line.
Proof.
  intros Hn. destruct line as [|c0 line]; [reflexivity|].
  set (l := c0 :: line) in *. unfold record at 1 3.
  f_equal. unfold record.
  pose proof (parseCSVLine_nonempty l) as Hne.
  pose proof (parseCSVLine_fields_nonempty l) as Hf.
  pose proof (parseCSVLine_no_delim l) as Hc.
  rewrite parseCSVLine_chunks at 1.
  rewrite chunks_join.
  - apply map_fixed. rewrite parseCSVLine_chunks. apply Forall_forall.
    intros f Hin. apply in_map_iff in Hin. destruct Hin as (x & <- & Hx).
    apply cleanField_idempotent_unquoted, unquoted_without_quote.
    intros H. apply Hn. exact (chunks_In COMMA l x DQUOTE Hx H).
  - apply Hne. discriminate.
  - rewrite Forall_forall in *. intros f Hin. split; [apply Hf|apply Hc]; exact Hin.
Qed.

(** On a file without double quotes the streaming engine is idempotent:
    cleaning its output again gives the same output, byte for byte. *)
Theorem cleaning_again_changes_nothing contents :
  ~ In DQUOTE contents ->
  read_loop (read_loop contents []) [] = read_loop contents [].
Proof.
  intros Hn. rewrite (read_loop_records (read_loop contents [])).
  rewrite (read_loop_records contents) at 2. f_equal. f_equal.
  unfold records at 1. rewrite read_loop_records.
  rewrite (chunks_lines _ (records_no_newline contents)), records_nonblank.
  unfold records. rewrite map_map. apply map_ext_in.
  intros l Hl. apply filter_In in Hl. destruct Hl as (Hl & _).
  apply record_again. intros H. apply Hn.
  exact (chunks_In LF contents l DQUOTE Hl H).
Qed.

Lemma cleaning_again_changes_nothing_witness :
  read_loop (read_loop (lit " a ,-,," ++ [CR; LF; LF] ++ lit "x, --") []) []
  = read_loop (lit " a ,-,," ++ [CR; LF; LF] ++ lit "x, --") [].
Proof.
  apply cleaning_again_changes_nothing. vm_compute. intuition discriminate.
Defined.

(** ** The output of the mapped-scan engine, and the engines on cleaned files *)

Lemma record_lines_no_newline lines :
  Forall (fun l => ~ In LF l) lines ->
  Forall (fun r => ~ In LF r) (map record (filter nonblank lines)).
Proof.
  intros Hall. apply Forall_forall. intros r Hr.
  apply in_map_iff in Hr. destruct Hr as (l & <- & Hl).
  apply filter_In in Hl. destruct Hl as (Hl & _).
  rewrite Forall_forall in Hall. specialize (Hall l Hl).
  intros H. apply record_In in H.
  destruct H as [E|[E|H]]; [discriminate|discriminate|exact (Hall H)].
Qed.

Lemma in_removelast (c : ascii) l : In c (removelast l) -> In c l.
Proof.
  destruct l as [|x l]; [intros []|]. intros H.
  rewrite (app_removelast_last NUL (l := x :: l)) by discriminate.
  apply in_or_app. left. exact H.
Qed.

Lemma strip_cr_In c line : In c (strip_cr line) -> In c line.
Proof.
  unfold strip_cr. destruct (Ascii.eqb (back line) CR); [|auto].
  apply in_removelast.
Qed.

Lemma emit_mapped_strip line : emit_mapped [] line = emit [] (strip_cr line).
Proof. destruct line; [symmetry; apply emit_empty_line|reflexivity]. Qed.

Lemma fold_emit_mapped_concat lines :
  fold_left emit_mapped lines []
  = concat (map (fun r => r ++ [LF])
              (map record (filter nonblank (map strip_cr lines)))).
Proof.
  induction lines as [|l lines IH]; [reflexivity|].
  cbn [fold_left]. rewrite fold_emit_mapped_app, IH, emit_mapped_strip.
  rewrite emit_record. cbn [map filter].
  destruct (nonblank (strip_cr l)); reflexivity.
Qed.

Lemma mapped_lines_records contents :
  chunks LF (scan_loop contents 0 [])
  = map record (filter nonblank (map strip_cr (chunks LF contents))).
Proof.
  rewrite scan_loop_chunks. cbn [skipn]. rewrite fold_emit_mapped_concat.
  apply chunks_lines, record_lines_no_newline.
  apply Forall_forall. intros l Hl H.
  apply in_map_iff in Hl. destruct Hl as (x & <- & Hx).
  apply strip_cr_In in H.
  pose proof (chunks_no_delim LF contents) as Hn.
  rewrite Forall_forall in Hn. exact (Hn x Hx H).
Qed.

(** The output of the mapped-scan engine, read line by line, is the records
    of the input lines without their final '\r', one output line for each
    line that is not empty then, in the same order; and it is empty or ends
    with a newline. *)
Theorem mapped_output_lines contents :
  chunks LF (scan_loop contents 0 [])
  = map record (filter nonblank (map strip_cr (chunks LF contents))) /\
  open_ended LF (scan_loop contents 0 []) = true.
Proof.
  split; [apply mapped_lines_records|].
  rewrite scan_loop_chunks. cbn [skipn]. rewrite fold_emit_mapped_concat.
  apply open_ended_lines.
Qed.

Lemma join_last_split sep fields :
  fields <> [] ->
  exists r0, Spec.join sep fields = r0 ++ last fields [].
Proof.
  induction fields as [|f rest IH]; [congruence|]. intros _.
  destruct rest as [|g rest]; [exists []; reflexivity|].
  destruct IH as (r0 & E); [discriminate|].
  exists (f ++ sep :: r0).
  change (Spec.join sep (f :: g :: rest))
    with (f ++ sep :: Spec.join sep (g :: rest)).
  rewrite E, <- app_assoc. reflexivity.
Qed.

Lemma back_In (s : str) : s <> [] -> In (back s) s.
Proof.
  intros Hne. rewrite (snoc_back s Hne) at 2.
  apply in_or_app. right. left. reflexivity.
Qed.

Lemma last_In_nonempty (fields : list str) :
  fields <> [] -> In (last fields []) fields.
Proof.
  induction fields as [|f rest IH]; [congruence|]. intros _.
  destruct rest as [|g rest]; [left; reflexivity|].
  right. apply IH. discriminate.
Qed.

Lemma record_cr_safe line : line <> [] -> cr_safe (record line) = true.
Proof.
  intros Hne. unfold record.
  pose proof (parseCSVLine_nonempty line Hne) as HF.
  destruct (join_last_split COMMA (parseCSVLine line) HF) as (r0 & E).
  pose proof (last_In_nonempty _ HF) as Hin.
  set (f := last (parseCSVLine line) []) in *.
  assert (Hf : f <> []).
  { pose proof (parseCSVLine_fields_nonempty line) as H.
    rewrite Forall_forall in H. exact (H f Hin). }
  assert (Hc : ~ In COMMA f).
  { pose proof (parseCSVLine_no_delim line) as H.
    rewrite Forall_forall in H. exact (H f Hin). }
  assert (Hp : is_placeholder f = false).
  { rewrite parseCSVLine_chunks in Hin. apply in_map_iff in Hin.
    destruct Hin as (x & <- & _). apply cleanField_not_placeholder. }
  rewrite E. unfold cr_safe. rewrite (back_app r0 f Hf).
  destruct (Ascii.eqb_spec (back f) CR) as [Hb|Hb]; [|reflexivity].
  cbn [negb orb]. apply negb_true_iff.
  rewrite (snoc_back f Hf), Hb, app_assoc, removelast_last.
  assert (Hf' : removelast f <> []).
  { intros E'. rewrite (snoc_back f Hf), E', Hb in Hp. discriminate. }
  apply open_ended_false.
  - intros E'. apply app_eq_nil in E'. destruct E' as (_ & E'). exact (Hf' E').
  - rewrite (back_app r0 _ Hf'). intros Hb'. apply Hc.
    apply in_removelast. rewrite <- Hb'. apply back_In. exact Hf'.
Qed.

Lemma record_lines_cr_safe lines :
  forallb cr_safe (map record (filter nonblank lines)) = true.
Proof.
  apply forallb_forall. intros r Hr.
  apply in_map_iff in Hr. destruct Hr as (l & <- & Hl).
  apply filter_In in Hl. destruct Hl as (_ & Hnb).
  apply record_cr_safe. intros ->. discriminate.
Qed.

(** On a file that either engine has written the two engines agree: the
    cleaned file holds no line on which they differ. *)
Theorem engines_agree_on_cleaned_files contents :
  scan_loop (read_loop contents []) 0 []
  = read_loop (read_loop contents []) [] /\
  scan_loop (scan_loop contents 0 []) 0 []
  = read_loop (scan_loop contents 0 []) [].
Proof.
  split; symmetry; apply engines_agree.
  - rewrite streaming_lines_records. apply record_lines_cr_safe.
  - rewrite mapped_lines_records. apply record_lines_cr_safe.
Qed.

(** ** Where the engines differ *)

Lemma emit_unsafe_length line :
  cr_safe line = false ->
  length (emit [] line) = length (emit_mapped [] line) + 2.
Proof.
  intros Hs. unfold cr_safe in Hs. apply orb_false_iff in Hs.
  destruct Hs as (Hb & Ho). apply negb_false_iff in Hb, Ho.
  apply Ascii.eqb_eq in Hb.
  destruct line as [|c line]; [discriminate|].
  rewrite emit_mapped_nonempty by discriminate.
  unfold strip_cr. rewrite Hb, Ascii.eqb_refl.
  rewrite (snoc_back (c :: line)) at 1 by discriminate. rewrite Hb.
  unfold emit. rewrite (parseCSVLine_snoc_cr_open _ Ho).
  destruct (parseCSVLine (removelast (c :: line))) as [|f rest0];
    [reflexivity|].
  cbn [app]. rewrite !writeCSVLine_cons. cbn [app].
  rewrite !join_cons, map_app, concat_app, !length_app. simpl.
  unfold str in *. lia.
Qed.

Lemma fold_emit_lengths lines :
  length (fold_left emit lines [])
  = length (fold_left emit_mapped lines [])
    + 2 * length (filter (fun l => negb (cr_safe l)) lines).
Proof.
  induction lines as [|l lines IH]; [reflexivity|].
  cbn [fold_left filter]. rewrite fold_emit_app, fold_emit_mapped_app.
  rewrite !length_app, IH.
  destruct (cr_safe l) eqn:Hs; cbn [negb].
  - rewrite (emit_cr_safe [] l Hs). lia.
  - rewrite (emit_unsafe_length l Hs). cbn [length]. lia.
Qed.

(** On a file that is not empty (an empty file cannot be mapped, so the
    mapped-scan engine has no run to compare on it) and with both files
    open, the engines differ on the lines that are "\r" alone or end with
    ",\r" and on no other: for each such line the streaming engine writes
    two bytes more than the mapped-scan engine (a field "0" and its
    separator or newline), and the two runs leave the same output exactly
    when the file has no such line. *)
Theorem engines_differ_by_unsafe_lines contents :
  contents <> [] ->
  length (read_loop contents [])
  = length (scan_loop contents 0 []) + 2 * length (unsafe_lines contents) /\
  (processFile (Some contents) true
   = processFileMemoryMapped (Some contents) true
   <-> forallb cr_safe (chunks LF contents) = true) /\
  (forallb cr_safe (chunks LF contents) = true
   <-> unsafe_lines contents = []).
Proof.
  intros _.
  assert (Hlen : length (read_loop contents [])
                 = length (scan_loop contents 0 [])
                   + 2 * length (unsafe_lines contents)).
  { rewrite read_loop_chunks, scan_loop_chunks. cbn [skipn].
    apply fold_emit_lengths. }
  assert (Hnone : unsafe_lines contents = [] ->
                  forallb cr_safe (chunks LF contents) = true).
  { intros E. apply forallb_forall. intros l Hl.
    destruct (cr_safe l) eqn:Hs; [reflexivity|].
    assert (Hin : In l (unsafe_lines contents)).
    { apply filter_In. split; [exact Hl|rewrite Hs; reflexivity]. }
    rewrite E in Hin. destruct Hin. }
  split; [exact Hlen|]. split; split.
  - cbn [processFile processFileMemoryMapped]. intros E.
    injection E as E. rewrite E in Hlen. apply Hnone.
    destruct (unsafe_lines contents); [reflexivity|simpl in Hlen; lia].
  - intros Hs. cbn [processFile processFileMemoryMapped].
    rewrite (engines_agree contents Hs). reflexivity.
  - intros Hs. unfold unsafe_lines.
    rewrite (filter_ext_in _ (fun _ => false)); [apply filter_false|].
    intros l Hl. rewrite forallb_forall in Hs. rewrite (Hs l Hl). reflexivity.
  - exact Hnone.
Qed.

Lemma engines_differ_by_unsafe_lines_witness :
  length (read_loop (lit "a," ++ [CR; LF] ++ lit "b" ++ [CR; LF; CR; LF]) [])
  = length (scan_loop (lit "a," ++ [CR; LF] ++ lit "b" ++ [CR; LF; CR; LF]) 0 [])
    + 2 * length (unsafe_lines
                    (lit "a," ++ [CR; LF] ++ lit "b" ++ [CR; LF; CR; LF])) /\
  (processFile
     (Some (lit "a," ++ [CR; LF] ++ lit "b" ++ [CR; LF; CR; LF])) true
   = processFileMemoryMapped
       (Some (lit "a," ++ [CR; LF] ++ lit "b" ++ [CR; LF; CR; LF])) true
   <-> forallb cr_safe
         (chunks LF (lit "a," ++ [CR; LF] ++ lit "b" ++ [CR; LF; CR; LF]))
       = true) /\
  (forallb cr_safe
     (chunks LF (lit "a," ++ [CR; LF] ++ lit "b" ++ [CR; LF; CR; LF])) = true
   <-> unsafe_lines (lit "a," ++ [CR; LF] ++ lit "b" ++ [CR; LF; CR; LF]) = []).
Proof.
  apply engines_differ_by_unsafe_lines. discriminate.
Defined.

Example engines_differ_by_unsafe_lines_bytes :
  unsafe_lines (lit "a," ++ [CR; LF] ++ lit "b" ++ [CR; LF; CR; LF])
  = [lit "a," ++ [CR]; [CR]] /\
  read_loop (lit "a," ++ [CR; LF] ++ lit "b" ++ [CR; LF; CR; LF]) []
  = lit "a,0" ++ [LF] ++ lit "b" ++ [LF] ++ lit "0" ++ [LF] /\
  scan_loop (lit "a," ++ [CR; LF] ++ lit "b" ++ [CR; LF; CR; LF]) 0 []
  = lit "a" ++ [LF] ++ lit "b" ++ [LF].
Proof. repeat split; vm_compute; reflexivity. Qed.

(** ** The validation sample *)






(** ** Examples *)

Example cleanField_trims : cleanField (lit "  12.5 ") = lit "12.5".
Proof. reflexivity. Qed.

Example cleanField_unquotes_after_trim :
  cleanField ([DQUOTE] ++ lit "a" ++ [DQUOTE; CR]) = lit "a".
Proof. reflexivity. Qed.

Example cleanField_vertical_tab : cleanField ["011"%char] = lit "0".
Proof. reflexivity. Qed.

(** Scenario 1 of the specification. *)
Example scenario_mixed_line :
  emit [] (lit "A,B,-,--,  ," ++ [DQUOTE] ++ lit "quoted" ++ [DQUOTE])
  = lit "A,B,0,0,0,quoted" ++ [LF].
Proof. vm_compute. reflexivity. Qed.

(** Scenario 4 of the specification: a header line alone. *)
Example scenario_header_only :
  processFile (Some (lit "Date,Temp - C, Hum" ++ [CR; LF])) true
  = Run true (Some (lit "Date,Temp - C,Hum" ++ [LF])) /\
  processFileMemoryMapped (Some (lit "Date,Temp - C, Hum" ++ [CR; LF])) true
  = Run true (Some (lit "Date,Temp - C,Hum" ++ [LF])).
Proof. split; vm_compute; reflexivity. Qed.

Example validateCleaning_two_rows :
  cout (validateCleaning (Some (lit "a,b" ++ [LF] ++ lit "c" ++ [LF] ++ lit "d"))
          2 (Console [] []))
  = [LF] ++ lit "Validation sample from cleaned file:" ++ [LF]
    ++ repeat DASH 80 ++ [LF]
    ++ lit "Line  1: a,b" ++ [LF] ++ lit "Line  2: c" ++ [LF].
Proof. vm_compute. reflexivity. Qed.
